(** * SmartMix recommendation engine: name matching and similarity scoring

    A shallow embedding of [recommendation_engine.py].

    - Python [str] values are lists of Unicode code points ([list N]).
    - The two Unicode tables CPython consults ([str.isalnum], [str.lower])
      are parameters of the text model; the whitespace table, which is
      small, is written out in full.
    - The three regular expressions of [normalize_song_name] are kept as
      data and run by a small backtracking matcher with the priorities of
      Python's [re] (lazy star, greedy plus, leftmost match).
    - Name-match scores are quotients of two word counts and are kept as
      exact rationals ([Q]); entries of the similarity matrix are finite
      float64 values, of which the selector only uses the order, so they
      are rationals too.
    - The arithmetic of lines 167-174 (NumPy float64) is that of the
      primitive floats; the two scikit-learn functions called on lines
      157-164 are parameters. Their descriptions in the specification are
      modelled apart, over the real numbers. *)

From Stdlib Require Import List NArith ZArith QArith Reals Sorted Lia Lqa Lra.
From Stdlib Require Import Strings.String Strings.Ascii.
From Stdlib Require PrimFloat FloatAxioms.

#[local] Set Warnings "-inexact-float".
From stdpp Require Import base list gmap strings.

Local Open Scope N_scope.

(** ** Python strings *)

Abbreviation pystr := (list N).

Fixpoint str (s : string) : pystr :=
  match s with
  | EmptyString => []
  | String a s' => N_of_ascii a :: str s'
  end.

(** Values that reach [normalize_song_name]: a [str], or anything else
    (a pandas cell left empty is the float NaN, an absent value [None]). *)
Inductive pyval :=
  | PyStr (s : pystr)
  | PyFloatNaN
  | PyNone.

(** [str.isspace] for one code point; [\s] of [re] and the no-argument
    forms of [str.strip] and [str.split] use the same table. *)
Definition isspace (c : N) : bool :=
  ((0x09 <=? c) && (c <=? 0x0D)) || ((0x1C <=? c) && (c <=? 0x20))
  || (c =? 0x85) || (c =? 0xA0) || (c =? 0x1680)
  || ((0x2000 <=? c) && (c <=? 0x200A))
  || (c =? 0x2028) || (c =? 0x2029) || (c =? 0x202F) || (c =? 0x205F)
  || (c =? 0x3000).

Definition SPACE : N := 0x20.
Definition NEWLINE : N := 0x0A.
Definition UNDERSCORE : N := 0x5F.
Definition LPAREN : N := 0x28.
Definition RPAREN : N := 0x29.
Definition LBRACKET : N := 0x5B.
Definition RBRACKET : N := 0x5D.

(** ** A matcher for the regular expressions of the source *)

Module Re.

(** Every pattern in the source is a sequence of single-character
    classes, each taken once, lazily any number of times ([*?]) or
    greedily at least once ([+]). *)
Inductive quant := One | LazyStar | GreedyPlus.

Record item := Item { cls : N -> bool; qnt : quant }.

Abbreviation regex := (list item).

(** [match_here re s]: the text left after the match of [re] that a
    backtracking matcher finds first at the start of [s]. *)
Fixpoint match_here (re : regex) (s : pystr) {struct re} : option pystr :=
  match re with
  | [] => Some s
  | Item p One :: re' =>
      match s with
      | c :: s' => if p c then match_here re' s' else None
      | [] => None
      end
  | Item p LazyStar :: re' =>
      (fix star (s : pystr) : option pystr :=
         match match_here re' s with
         | Some r => Some r
         | None =>
             match s with
             | c :: s' => if p c then star s' else None
             | [] => None
             end
         end) s
  | Item p GreedyPlus :: re' =>
      (fix plus (s : pystr) : option pystr :=
         match s with
         | c :: s' =>
             if p c then
               match plus s' with
               | Some r => Some r
               | None => match_here re' s'
               end
             else None
         | [] => None
         end) s
  end.

(** [re.sub(re, repl, s)] for a pattern that never matches the empty
    string: scan left to right; where the pattern matches, emit [repl]
    and resume after the match ([skip] counts the matched characters
    still to pass over); elsewhere copy the character. *)
Fixpoint sub_from (re : regex) (repl : pystr) (skip : nat) (s : pystr)
  : pystr :=
  match s with
  | [] => []
  | c :: s' =>
      match skip with
      | S k => sub_from re repl k s'
      | O =>
          match match_here re s with
          | Some rest =>
              repl ++ sub_from re repl (length s' - length rest)%nat s'
          | None => c :: sub_from re repl 0 s'
          end
      end
  end.

Definition sub (re : regex) (repl : pystr) (s : pystr) : pystr :=
  sub_from re repl 0 s.

End Re.

(** ** Text model, parametric in the Unicode tables *)

Definition is_open (c : N) : bool := (c =? LPAREN) || (c =? LBRACKET).
Definition is_close (c : N) : bool := (c =? RPAREN) || (c =? RBRACKET).
(** [.] without DOTALL: any character but the line feed. *)
Definition is_dot (c : N) : bool := negb (c =? NEWLINE).

Fixpoint lstrip (s : pystr) : pystr :=
  match s with
  | [] => []
  | c :: s' => if isspace c then lstrip s' else s
  end.

Fixpoint rstrip (s : pystr) : pystr :=
  match s with
  | [] => []
  | c :: s' => if forallb isspace s then [] else c :: rstrip s'
  end.

(** [str.strip()] *)
Definition strip (s : pystr) : pystr := rstrip (lstrip s).

Section Text.

(** [str.isalnum] for one code point, and [str.lower] (a function of the
    whole string: the lower case of a capital sigma depends on its
    neighbours, and one code point may become two). *)
Variable isalnum : N -> bool.
Variable lower : pystr -> pystr.

(** [\w]: alphanumeric or the underscore. *)
Definition isword (c : N) : bool := isalnum c || (c =? UNDERSCORE).

(** [[\(\[].*?[\)\]]] *)
Definition bracket_re : Re.regex :=
  [Re.Item is_open Re.One; Re.Item is_dot Re.LazyStar;
   Re.Item is_close Re.One].

(** [[^\w\s]] *)
Definition special_re : Re.regex :=
  [Re.Item (fun c => negb (isword c || isspace c)) Re.One].

(** [\s+] *)
Definition spaces_re : Re.regex := [Re.Item isspace Re.GreedyPlus].

Definition normalize_song_name (name : pyval) : pystr :=
  match name with
  | PyStr name =>
      let name := Re.sub bracket_re [] name in
      let name := Re.sub special_re [] name in
      let name := strip (lower name) in
      let name := Re.sub spaces_re [SPACE] name in
      name
  | _ => []
  end.

(** *** The steps of the normalizer as list functions *)

(** Is there a closing bracket of either kind further on this line? *)
Fixpoint closes_on_line (s : pystr) : bool :=
  match s with
  | [] => false
  | c :: s' => is_close c || (negb (c =? NEWLINE) && closes_on_line s')
  end.

(** Delete every stretch that runs from an opening bracket to the first
    closing bracket after it, of either kind, on the same line. *)
Fixpoint remove_bracketed (inside : bool) (s : pystr) : pystr :=
  match s with
  | [] => []
  | c :: s' =>
      if inside then remove_bracketed (negb (is_close c)) s'
      else if is_open c && closes_on_line s' then remove_bracketed true s'
      else c :: remove_bracketed false s'
  end.

(** Replace every run of whitespace by one space. *)
Fixpoint collapse_spaces (in_run : bool) (s : pystr) : pystr :=
  match s with
  | [] => []
  | c :: s' =>
      if isspace c then
        if in_run then collapse_spaces true s'
        else SPACE :: collapse_spaces true s'
      else c :: collapse_spaces false s'
  end.

Definition keep_word_or_space (s : pystr) : pystr :=
  List.filter (fun c => isword c || isspace c) s.

(** The normalizer as a pipeline of the five steps, in the order
    brackets, special characters, lower case, whitespace runs, trim. *)
Definition normalize_steps (name : pyval) : pystr :=
  match name with
  | PyStr s =>
      strip (collapse_spaces false
               (lower (keep_word_or_space (remove_bracketed false s))))
  | _ => []
  end.

(** The first two steps as the specification words them: an opening
    bracket is paired with the first closing bracket of its own kind,
    wherever it is, and only alphanumerics and whitespace survive. *)
Definition closer_of (c : N) : option N :=
  if c =? LPAREN then Some RPAREN
  else if c =? LBRACKET then Some RBRACKET
  else None.

Fixpoint remove_enclosed_spec (closing : option N) (s : pystr) : pystr :=
  match s with
  | [] => []
  | c :: s' =>
      match closing with
      | Some cl =>
          if c =? cl then remove_enclosed_spec None s'
          else remove_enclosed_spec closing s'
      | None =>
          match closer_of c with
          | Some cl =>
              if existsb (N.eqb cl) s' then remove_enclosed_spec (Some cl) s'
              else c :: remove_enclosed_spec None s'
          | None => c :: remove_enclosed_spec None s'
          end
      end
  end.

Definition normalize_spec (name : pyval) : pystr :=
  match name with
  | PyStr s =>
      strip (collapse_spaces false
               (lower (List.filter (fun c => isalnum c || isspace c)
                         (remove_enclosed_spec None s))))
  | _ => []
  end.

(** ** Name resolver *)

Fixpoint is_prefix (p s : pystr) : bool :=
  match p, s with
  | [], _ => true
  | a :: p', b :: s' => (a =? b) && is_prefix p' s'
  | _ :: _, [] => false
  end.

(** [needle in hay] *)
Fixpoint contains (needle hay : pystr) : bool :=
  is_prefix needle hay
  || match hay with
     | [] => false
     | _ :: hay' => contains needle hay'
     end.

(** [str.split()]: the maximal runs of non-whitespace, in order; [cur] is
    the current run, reversed. *)
Fixpoint split_from (cur : pystr) (s : pystr) : list pystr :=
  match s with
  | [] => match cur with [] => [] | _ => [rev cur] end
  | c :: s' =>
      if isspace c then
        match cur with
        | [] => split_from [] s'
        | _ => rev cur :: split_from [] s'
        end
      else split_from (c :: cur) s'
  end.

Definition split (s : pystr) : list pystr := split_from [] s.

(** [set(s.split())] *)
Definition word_set (s : pystr) : gset pystr := list_to_set (split s).

Definition Qltb (a b : Q) : bool := negb (Qle_bool b a).

(** The score of one candidate (lines 56-63). The quotient of the two
    lengths is a Python float, the correctly rounded value of the exact
    quotient. All scores of one query share the denominator and the
    literal 0.3 is the float that 3/10 rounds to, so the comparisons of
    lines 65 and 69 come out as on the exact quotients kept here. *)
Definition match_score (normalized_target csv_song_normalized : pystr) : Q :=
  if contains normalized_target csv_song_normalized
     || contains csv_song_normalized normalized_target
  then 1%Q
  else
    let target_words := word_set normalized_target in
    let csv_words := word_set csv_song_normalized in
    let common_words := target_words ∩ csv_words in
    Qmake (Z.of_nat (size common_words))
          (Pos.of_nat (Nat.max (size target_words) 1)).

(** One turn of the loop of lines 54-67 on [(best_match_idx,
    best_match_score)]. *)
Definition update_best (normalized_target : pystr) (best : Z * Q)
    (idx : nat) (csv_song_normalized : pystr) : Z * Q :=
  let score := match_score normalized_target csv_song_normalized in
  if Qltb (snd best) score then (Z.of_nat idx, score) else best.

Fixpoint best_match_from (normalized_target : pystr) (idx : nat)
    (df_normalized : list pystr) (best : Z * Q) : Z * Q :=
  match df_normalized with
  | [] => best
  | c :: rest =>
      best_match_from normalized_target (S idx) rest
        (update_best normalized_target best idx c)
  end.

Definition THRESHOLD : Q := 3 # 10.

(** Lines 43-71: the row the query resolves to, if any. *)
Definition resolve (target_song_name : pyval) (names : list pyval)
  : option nat :=
  let normalized_target := normalize_song_name target_song_name in
  let df_normalized := map normalize_song_name names in
  let '(best_match_idx, best_match_score) :=
    best_match_from normalized_target 0 df_normalized ((-1)%Z, 0%Q) in
  if (best_match_idx =? -1)%Z || Qltb best_match_score THRESHOLD
  then None
  else Some (Z.to_nat best_match_idx).

End Text.

(** The tables on ASCII. *)
Definition ascii_isalnum (c : N) : bool :=
  ((0x30 <=? c) && (c <=? 0x39)) || ((0x41 <=? c) && (c <=? 0x5A))
  || ((0x61 <=? c) && (c <=? 0x7A)).

Definition ascii_lower_char (c : N) : N :=
  if (0x41 <=? c) && (c <=? 0x5A) then c + 0x20 else c.

Definition ascii_lower (s : pystr) : pystr := map ascii_lower_char s.

Definition is_ascii (c : N) : bool := c <? 0x80.

(** A table that agrees with CPython on ASCII and on the two code points
    U+0130 (capital I with dot above, a letter) and U+0307 (combining dot
    above, not alphanumeric): [str.lower] turns the first into "i"
    followed by the second. *)
Definition ex_isalnum (c : N) : bool := ascii_isalnum c || (c =? 0x130).

Definition ex_lower (s : pystr) : pystr :=
  flat_map (fun c => if c =? 0x130 then [0x69; 0x307]
                     else [ascii_lower_char c]) s.

(** ** Exceptions *)

(** [KeyError] and [IndexError] derive from [Exception];
    [KeyboardInterrupt] stands for the classes that do not (they pass
    through [except Exception]). *)
Inductive exn := KeyError | IndexError | KeyboardInterrupt.

Definition is_Exception (e : exn) : bool :=
  match e with
  | KeyboardInterrupt => false
  | _ => true
  end.

Inductive result (A : Type) :=
  | Return (a : A)
  | Raise (e : exn).
Arguments Return {A} a.
Arguments Raise {A} e.

#[global] Instance result_ret : MRet result := fun A a => Return a.
#[global] Instance result_bind : MBind result := fun A B f m =>
  match m with
  | Return a => f a
  | Raise e => Raise e
  end.

(** ** The table and the similarity matrix as the function sees them *)

(** A [DataFrame]: its columns by name; only [filename] is read here. *)
Record dataframe := DataFrame { columns : gmap string (list pyval) }.

(** [df[col]] *)
Definition getitem (df : dataframe) (col : string) : result (list pyval) :=
  match columns df !! col with
  | Some cells => Return cells
  | None => Raise KeyError
  end.

(** [df.iloc[idx]['filename']] *)
Definition iloc_filename (df : dataframe) (idx : nat) : result pyval :=
  cells ← getitem df "filename";
  match cells !! idx with
  | Some v => Return v
  | None => Raise IndexError
  end.

(** [similarity_matrix[i, :]] *)
Definition matrix_row (similarity_matrix : list (list Q)) (i : nat)
  : result (list Q) :=
  match similarity_matrix !! i with
  | Some r => Return r
  | None => Raise IndexError
  end.

(** [similarities[idx]] *)
Definition item (similarities : list Q) (idx : nat) : result Q :=
  match similarities !! idx with
  | Some v => Return v
  | None => Raise IndexError
  end.

(** The loop of lines 88-92 without its lookups: the first index of the
    scan that is not the target. *)
Definition first_other (target_song_idx : nat) (similar_indices : list nat)
  : option nat :=
  List.find (fun idx => negb (idx =? target_song_idx)%nat) similar_indices.

(** The logging loop of lines 82-85; its two lookups can raise. *)
Fixpoint debug_top (df : dataframe) (similarities : list Q)
    (target_song_idx : nat) (indices : list nat) : result unit :=
  match indices with
  | [] => Return tt
  | idx :: rest =>
      if (idx =? target_song_idx)%nat
      then debug_top df similarities target_song_idx rest
      else
        _ ← item similarities idx;
        _ ← iloc_filename df idx;
        debug_top df similarities target_song_idx rest
  end.

Section Crossfade.

Variable isalnum : N -> bool.
Variable lower : pystr -> pystr.

(** [ndarray.argsort()]: the indices of a row in ascending order of the
    values. NumPy's default sort is not stable, so which of two equal
    values comes first is left open: the function is a parameter and the
    theorems assume only what {!argsort_spec} says. *)
Variable argsort : list Q -> list nat.

(** Section 4.5: the index the selector returns for a resolved target. *)
Definition recommend (target_index : nat) (similarity_matrix : list (list Q))
  : result (option nat) :=
  similarities ← matrix_row similarity_matrix target_index;
  let similar_indices := reverse (argsort similarities) in
  Return (first_other target_index similar_indices).

(** The body of the [try] block, lines 40-95. *)
Definition find_best_body (target_song_name : pyval) (df : dataframe)
    (similarity_matrix : list (list Q)) : result (option pyval) :=
  names ← getitem df "filename";
  match resolve isalnum lower target_song_name names with
  | None => Return None
  | Some target_song_idx =>
      _ ← iloc_filename df target_song_idx;
      similarities ← matrix_row similarity_matrix target_song_idx;
      let similar_indices := reverse (argsort similarities) in
      _ ← debug_top df similarities target_song_idx (take 5 similar_indices);
      match first_other target_song_idx similar_indices with
      | Some idx =>
          match_filename ← iloc_filename df idx;
          Return (Some match_filename)
      | None => Return None
      end
  end.

(** [try: ... except Exception: return None] *)
Definition find_best_crossfade_from_match (target_song_name : pyval)
    (df : dataframe) (similarity_matrix : list (list Q))
  : result (option pyval) :=
  match find_best_body target_song_name df similarity_matrix with
  | Return v => Return v
  | Raise e => if is_Exception e then Return None else Raise e
  end.

End Crossfade.

(** What a sort by key guarantees: the result lists every index once and
    the values along it do not decrease. *)
Definition argsort_spec (argsort : list Q -> list nat) : Prop :=
  forall r : list Q,
    Permutation (argsort r) (seq 0 (length r))
    /\ forall p q a b x y,
         (p <= q)%nat ->
         argsort r !! p = Some a -> argsort r !! q = Some b ->
         r !! a = Some x -> r !! b = Some y -> (x <= y)%Q.

(** The value of entry [i] of a row, for comparing two indices. *)
Definition value_at (r : list Q) (i : nat) : Q := nth i r 0%Q.

(** One sort that meets it: insertion of the indices, one after the other,
    before the first index with a larger value. *)
Fixpoint insert_index (r : list Q) (i : nat) (sorted : list nat) : list nat :=
  match sorted with
  | [] => [i]
  | j :: rest =>
      if Qltb (value_at r i) (value_at r j) then i :: sorted
      else j :: insert_index r i rest
  end.

Definition argsort_stable (r : list Q) : list nat :=
  fold_left (fun acc i => insert_index r i acc) (seq 0 (length r)) [].

(** ** Similarity engine (lines 151-174) *)

(** The arithmetic of NumPy on float64 arrays is the arithmetic of the
    primitive floats: IEEE 754 binary64, rounding to nearest, with
    infinities and NaN. *)
Module Similarity.

Import PrimFloat.

Abbreviation fmatrix := (list (list float)).

Definition MFCC_WEIGHT : float := 0.4.
Definition CHROMA_WEIGHT : float := 0.2.
Definition TEMPO_WEIGHT : float := 0.4.
(** The constant added to the largest tempo difference on line 169. *)
Definition EPSILON : float := 1e-8.

(** One row of [df_final] after parsing; the two tempo columns are numeric
    (a column of integers below 2^53 holds the same values as floats). *)
Record track := Track {
  filename : pyval;
  mfcc_start : list float;
  chroma_start : list float;
  mfcc_end : list float;
  chroma_end : list float;
  tempo_start : float;
  tempo_end : float
}.

(** [np.vstack]: raises on an empty sequence and on rows of different
    lengths. *)
Definition stackable (rows : list (list float)) : bool :=
  match rows with
  | [] => false
  | r :: rest => forallb (fun r' => (length r' =? length r)%nat) rest
  end.

Definition vstack (rows : list (list float)) : option fmatrix :=
  if stackable rows then Some rows else None.

(** [m[i, j]] *)
Definition entry (m : fmatrix) (i j : nat) : option float :=
  row ← m !! i; row !! j.

(** [np.maximum] of two values: a NaN wins, otherwise the larger one. *)
Definition maximum (a b : float) : float :=
  if is_nan a then a
  else if is_nan b then b
  else if (a <? b)%float then b else a.

(** [ndarray.max()] of a matrix; raises on an empty one. *)
Definition amax (m : fmatrix) : option float :=
  match concat m with
  | [] => None
  | x :: xs => Some (fold_left maximum xs x)
  end.

Definition scale (w : float) (m : fmatrix) : fmatrix :=
  map (map (fun v => (w * v)%float)) m.

(** Sum of two matrices of one shape, entry by entry. *)
Definition add (a b : fmatrix) : fmatrix :=
  zip_with (zip_with (fun u v => (u + v)%float)) a b.

(** [|tempo_end[i] - tempo_start[j]|], a column broadcast against a row. *)
Definition tempo_matrix (df_final : list track) : fmatrix :=
  map (fun a =>
         map (fun b => abs (tempo_end a - tempo_start b)%float) df_final)
      df_final.

(** Lines 167-169. *)
Definition tempo_similarity (df_final : list track) : option fmatrix :=
  let tm := tempo_matrix df_final in
  mx ← amax tm;
  Some (map (map (fun d => (1 - d / (mx + EPSILON))%float)) tm).

Section Build.

(** scikit-learn's [StandardScaler().fit_transform] and
    [cosine_similarity], as they behave on the arrays of one run; [None]
    when the call raises (on NaN or infinite input, on matrices of
    different widths, ...). *)
Variable fit_transform : fmatrix -> option fmatrix.
Variable cosine_similarity : fmatrix -> fmatrix -> option fmatrix.

(** The second [try] block of [main]; [None] is its [except] branch. *)
Definition build_similarity (df_final : list track) : option fmatrix :=
  mfcc_start_matrix ← vstack (map mfcc_start df_final);
  mfcc_end_matrix ← vstack (map mfcc_end df_final);
  chroma_start_matrix ← vstack (map chroma_start df_final);
  chroma_end_matrix ← vstack (map chroma_end df_final);
  mfcc_start_scaled ← fit_transform mfcc_start_matrix;
  mfcc_end_scaled ← fit_transform mfcc_end_matrix;
  chroma_start_scaled ← fit_transform chroma_start_matrix;
  chroma_end_scaled ← fit_transform chroma_end_matrix;
  mfcc_similarity ← cosine_similarity mfcc_end_scaled mfcc_start_scaled;
  chroma_similarity ←
    cosine_similarity chroma_end_scaled chroma_start_scaled;
  tempo_sim ← tempo_similarity df_final;
  Some (add (add (scale MFCC_WEIGHT mfcc_similarity)
                 (scale CHROMA_WEIGHT chroma_similarity))
            (scale TEMPO_WEIGHT tempo_sim)).

End Build.

(** A matrix with [rows] rows of [cols] entries each. *)
Definition has_shape (m : fmatrix) (rows cols : nat) : Prop :=
  length m = rows /\ Forall (fun r => length r = cols) m.

(** What the two library functions promise when they return: the scaler
    one row per input row; [cosine_similarity(X, Y)] one row per row of
    [X], one column per row of [Y], and at [(i, j)] the cosine of row [i]
    of [X] and row [j] of [Y]. *)
Definition fit_transform_contract
    (fit_transform : fmatrix -> option fmatrix) : Prop :=
  forall X X', fit_transform X = Some X' -> length X' = length X.

Definition cosine_similarity_contract
    (cosine_similarity : fmatrix -> fmatrix -> option fmatrix)
    (cosine : list float -> list float -> float) : Prop :=
  forall X Y K, cosine_similarity X Y = Some K ->
    has_shape K (length X) (length Y)
    /\ forall i j x y, X !! i = Some x -> Y !! j = Some y ->
         entry K i j = Some (cosine x y).

(** *** Plain float64 versions of the two library functions, for examples

    They follow the formulas of sections 4.3 and 4.4 with sums taken from
    left to right; scikit-learn's own results can differ in the last
    bits. *)

Definition fsum (l : list float) : float :=
  fold_left (fun acc v => (acc + v)%float) l 0%float.

Definition fcount (l : list float) : float :=
  fold_left (fun acc _ => (acc + 1)%float) l 0%float.

Definition fmean (l : list float) : float := (fsum l / fcount l)%float.

Definition plain_standardize_column (col : list float) : list float :=
  let mu := fmean col in
  let sd := sqrt (fmean (map (fun v => ((v - mu) * (v - mu))%float) col)) in
  if (sd =? 0)%float then map (fun v => (v - mu)%float) col
  else map (fun v => ((v - mu) / sd)%float) col.

Definition fcolumn (j : nat) (m : fmatrix) : list float :=
  map (fun row => nth j row 0%float) m.

Definition plain_standardize (m : fmatrix) : fmatrix :=
  imap (fun i row =>
          imap (fun j _ =>
                  nth i (plain_standardize_column (fcolumn j m)) 0%float)
               row)
       m.

Definition plain_fit_transform (m : fmatrix) : option fmatrix :=
  Some (plain_standardize m).

Definition fdot (a b : list float) : float :=
  fsum (zip_with (fun u v => (u * v)%float) a b).

Definition plain_cosine (a b : list float) : float :=
  let na := sqrt (fdot a a) in
  let nb := sqrt (fdot b b) in
  if (na =? 0)%float || (nb =? 0)%float then 0%float
  else (fdot a b / (na * nb))%float.

(** It refuses two matrices whose rows differ in length, as the library
    does. *)
Definition plain_cosine_table (X Y : fmatrix) : fmatrix :=
  map (fun x => map (fun y => plain_cosine x y) Y) X.

Definition plain_cosine_similarity (X Y : fmatrix) : option fmatrix :=
  match X, Y with
  | x :: _, y :: _ =>
      if (length x =? length y)%nat then Some (plain_cosine_table X Y)
      else None
  | _, _ => None
  end.

(** Tables for the examples: two tracks; two tracks that all start and end
    at one tempo; one track whose two tempi are finite and so far apart
    that their difference overflows. *)
Definition example_tracks : list track :=
  [ Track (PyStr (str "a.mp3")) [1; 2] [1; 0] [2; 1] [0; 1] 120 124;
    Track (PyStr (str "b.mp3")) [3; 2] [0; 1] [1; 1] [1; 1] 126 90 ]%float.


Definition overflow_track : list track :=
  [ Track (PyStr (str "a.mp3")) [1; 2] [1; 0] [2; 1] [0; 1]
      (-1e308) 1e308 ]%float.

End Similarity.

(** ** The scaler and the cosine as section 4 describes them *)

Module Engine.

Local Open Scope R_scope.

Abbreviation matrix := (list (list R)).

Definition sum (l : list R) : R := fold_right Rplus 0 l.
Definition mean (l : list R) : R := sum l / INR (length l).
(** Population variance and standard deviation (divide by N). *)
Definition variance (l : list R) : R :=
  mean (map (fun x => (x - mean l) * (x - mean l)) l).
Definition std (l : list R) : R := sqrt (variance l).

Definition column (j : nat) (m : matrix) : list R :=
  map (fun row => nth j row 0) m.

(** Modelled from the spec: [StandardScaler] is scikit-learn code, absent
    from the repository. Section 4.3: subtract the column mean and divide
    by the population standard deviation; a column of zero variance
    becomes all zeros. *)
Definition standardize_column (col : list R) : list R :=
  if Req_dec_T (variance col) 0 then map (fun _ => 0) col
  else map (fun x => (x - mean col) / std col) col.

Definition standardize (m : matrix) : matrix :=
  imap (fun i row =>
          imap (fun j _ => nth i (standardize_column (column j m)) 0) row)
       m.

Definition dot (a b : list R) : R := sum (zip_with Rmult a b).
Definition norm (a : list R) : R := sqrt (dot a a).

(** Modelled from the spec: [cosine_similarity] is scikit-learn code,
    absent from the repository. Section 4.4, step 2: the dot product over
    the product of the L2 norms, and 0 when either norm is 0. *)
Definition cosine (a b : list R) : R :=
  if Req_dec_T (norm a) 0 then 0
  else if Req_dec_T (norm b) 0 then 0
  else dot a b / (norm a * norm b).

End Engine.

(** The ASCII code points, for facts checked character by character. *)
Definition ascii_codes : list N := map N.of_nat (seq 0 128).

Definition all_ascii (s : pystr) : Prop := Forall (fun c => is_ascii c = true) s.

(** Inputs made of ASCII characters, or not strings at all. *)
Definition ascii_input (name : pyval) : Prop :=
  match name with
  | PyStr s => all_ascii s
  | _ => True
  end.

(** The characters of a normalized ASCII name: the space, or a word
    character that is its own lower case. *)
Definition normal_char (c : N) : Prop :=
  c = SPACE
  \/ (is_ascii c = true /\ isspace c = false
      /\ isword ascii_isalnum c = true /\ ascii_lower_char c = c).

(** [needle] occurs in [hay] as a block of consecutive characters. *)
Definition is_substring (needle hay : pystr) : Prop :=
  exists before after, hay = before ++ needle ++ after.

(** ** Loading the table (lines 129-139) *)

Definition COMMA : N := 0x2C.

Definition required_columns : list string :=
  ["filename"; "mfcc_start"; "chroma_start"; "mfcc_end"; "chroma_end";
   "tempo_start"; "tempo_end"]%string.

(** [[col for col in required_columns if col not in df_final.columns]] *)
Definition missing_columns (df_final : dataframe) : list string :=
  List.filter (fun col => bool_decide (columns df_final !! col = None))
              required_columns.

Definition in_chars (chars : pystr) (c : N) : bool := existsb (N.eqb c) chars.

Fixpoint lstrip_chars (chars : pystr) (s : pystr) : pystr :=
  match s with
  | [] => []
  | c :: s' => if in_chars chars c then lstrip_chars chars s' else s
  end.

Fixpoint rstrip_chars (chars : pystr) (s : pystr) : pystr :=
  match s with
  | [] => []
  | c :: s' =>
      if forallb (in_chars chars) s then [] else c :: rstrip_chars chars s'
  end.

(** [str.strip(chars)] *)
Definition strip_chars (chars : pystr) (s : pystr) : pystr :=
  rstrip_chars chars (lstrip_chars chars s).

(** [str.split(sep)] for a separator of one character: the pieces between
    the separators, empty pieces included; never an empty list. *)
Fixpoint split_on (sep : N) (s : pystr) : list pystr :=
  match s with
  | [] => [[]]
  | c :: s' =>
      if c =? sep then [] :: split_on sep s'
      else
        match split_on sep s' with
        | p :: ps => (c :: p) :: ps
        | [] => [[c]]
        end
  end.

(** [sep.join(pieces)] *)
Fixpoint join_with (sep : N) (pieces : list pystr) : pystr :=
  match pieces with
  | [] => []
  | p :: rest =>
      match rest with
      | [] => p
      | _ => p ++ sep :: join_with sep rest
      end
  end.

Module Loader.

Section Parse.

(** [float(val)]; [None] when it raises [ValueError]. *)
Variable float : pystr -> option R.

(** The lambda of lines 136-139,
    [np.array([float(val) for val in x.strip('[]').split(',')])];
    [None] when it raises (no [strip] on a cell that is not a string, or a
    piece that [float] rejects). *)
Definition parse_vector (x : pyval) : option (list R) :=
  match x with
  | PyStr x =>
      mapM float (split_on COMMA (strip_chars [LBRACKET; RBRACKET] x))
  | _ => None
  end.

(** [column.apply(lambda x: ...)] *)
Definition parse_column (cells : list pyval) : option (list (list R)) :=
  mapM parse_vector cells.

End Parse.

End Loader.

(** A stand-in for [float] in examples: it reads a single decimal digit
    and rejects everything else. *)
Definition example_float (p : pystr) : option R :=
  match p with
  | [c] =>
      if (0x30 <=? c) && (c <=? 0x39) then Some (IZR (Z.of_N (c - 0x30)))
      else None
  | _ => None
  end.

(** * Facts *)

(** ** The matcher on the three patterns *)

Lemma sub_from_drop re repl k s :
  Re.sub_from re repl k s = Re.sub_from re repl 0 (drop k s).
Proof.
  revert k. induction s as [|c s IH]; intros [|k]; simpl; auto.
Qed.

Lemma lstrip_length s : (length (lstrip s) <= length s)%nat.
Proof.
  induction s as [|c s IH]; simpl; [lia|].
  destruct (isspace c); simpl; lia.
Qed.

Lemma match_spaces c s :
  Re.match_here spaces_re (c :: s)
  = if isspace c then Some (lstrip s) else None.
Proof.
  unfold spaces_re. cbn [Re.match_here].
  destruct (isspace c) eqn:Hc; [|reflexivity].
  induction s as [|d s IH]; [reflexivity|].
  cbn [lstrip]. destruct (isspace d) eqn:Hd; [|reflexivity].
  rewrite IH. reflexivity.
Qed.

Lemma collapse_nonspace_flag b c s :
  isspace c = false ->
  collapse_spaces b (c :: s) = c :: collapse_spaces false s.
Proof. intros H. simpl. rewrite H. reflexivity. Qed.

Lemma sub_spaces_both s :
  Re.sub_from spaces_re [SPACE] 0 s = collapse_spaces false s
  /\ Re.sub_from spaces_re [SPACE] (length s - length (lstrip s)) s
     = collapse_spaces true s.
Proof.
  induction s as [|c s [IH0 IH1]]; [split; reflexivity|].
  split.
  - cbn [Re.sub_from]. rewrite match_spaces.
    cbn [collapse_spaces]. destruct (isspace c); simpl.
    + f_equal. exact IH1.
    + f_equal. exact IH0.
  - cbn [lstrip collapse_spaces]. destruct (isspace c) eqn:Hc.
    + pose proof (lstrip_length s).
      replace (length (c :: s) - length (lstrip s))%nat
        with (S (length s - length (lstrip s))) by (simpl; lia).
      cbn [Re.sub_from]. exact IH1.
    + rewrite Nat.sub_diag. cbn [Re.sub_from]. rewrite match_spaces, Hc.
      f_equal. exact IH0.
Qed.

Lemma sub_spaces s :
  Re.sub spaces_re [SPACE] s = collapse_spaces false s.
Proof. apply sub_spaces_both. Qed.

Section TextFacts.

Variable isalnum : N -> bool.
Variable lower : pystr -> pystr.

Lemma sub_special s :
  Re.sub (special_re isalnum) [] s = keep_word_or_space isalnum s.
Proof.
  unfold Re.sub, keep_word_or_space.
  induction s as [|c s IH]; [reflexivity|].
  cbn [Re.sub_from special_re Re.match_here List.filter].
  destruct (isword isalnum c || isspace c); cbn [negb app].
  - f_equal. exact IH.
  - rewrite Nat.sub_diag. exact IH.
Qed.

End TextFacts.

(** The tail [.*?[\)\]]] of the bracket pattern stops at the first closing
    bracket and fails at a line feed that comes before one. *)
Lemma match_tail_nil :
  Re.match_here [Re.Item is_dot Re.LazyStar; Re.Item is_close Re.One] []
  = None.
Proof. reflexivity. Qed.

Lemma match_tail_cons c s :
  Re.match_here [Re.Item is_dot Re.LazyStar; Re.Item is_close Re.One] (c :: s)
  = if is_close c then Some s
    else if is_dot c
         then Re.match_here
                [Re.Item is_dot Re.LazyStar; Re.Item is_close Re.One] s
         else None.
Proof.
  cbn [Re.match_here]. destruct (is_close c); [reflexivity|].
  destruct (is_dot c); reflexivity.
Qed.

Lemma match_tail_closes s :
  closes_on_line s
  = bool_decide (is_Some (Re.match_here
      [Re.Item is_dot Re.LazyStar; Re.Item is_close Re.One] s)).
Proof.
  induction s as [|c s IH].
  - rewrite match_tail_nil. reflexivity.
  - rewrite match_tail_cons. cbn [closes_on_line].
    destruct (is_close c); [reflexivity|]. unfold is_dot.
    destruct (c =? NEWLINE); [reflexivity|]. exact IH.
Qed.

Lemma match_tail_length s rest :
  Re.match_here [Re.Item is_dot Re.LazyStar; Re.Item is_close Re.One] s
  = Some rest -> (length rest < length s)%nat.
Proof.
  revert rest. induction s as [|c s IH]; intros rest.
  - rewrite match_tail_nil. discriminate.
  - rewrite match_tail_cons. destruct (is_close c).
    + intros [= <-]. simpl. lia.
    + destruct (is_dot c); [|discriminate].
      intros H. apply IH in H. simpl. lia.
Qed.

Lemma match_bracket c s :
  Re.match_here bracket_re (c :: s)
  = if is_open c
    then Re.match_here
           [Re.Item is_dot Re.LazyStar; Re.Item is_close Re.One] s
    else None.
Proof. reflexivity. Qed.

Lemma sub_bracket_both s :
  Re.sub_from bracket_re [] 0 s = remove_bracketed false s
  /\ forall rest,
       Re.match_here [Re.Item is_dot Re.LazyStar; Re.Item is_close Re.One] s
       = Some rest ->
       Re.sub_from bracket_re [] (length s - length rest) s
       = remove_bracketed true s.
Proof.
  induction s as [|c s [IH0 IH1]].
  - split; [reflexivity|]. rewrite match_tail_nil. discriminate.
  - split.
    + cbn [Re.sub_from remove_bracketed]. rewrite match_bracket.
      rewrite match_tail_closes.
      destruct (Re.match_here _ s) as [rest|] eqn:Hm.
      * rewrite bool_decide_true by eauto.
        destruct (is_open c); cbn [andb app].
        -- apply IH1. reflexivity.
        -- f_equal. exact IH0.
      * rewrite bool_decide_false by (intros [? ?]; discriminate).
        destruct (is_open c); cbn [andb]; f_equal; exact IH0.
    + intros rest. rewrite match_tail_cons. cbn [remove_bracketed].
      destruct (is_close c).
      * intros [= <-].
        replace (length (c :: s) - length s)%nat with 1%nat by (simpl; lia).
        exact IH0.
      * destruct (is_dot c); [|discriminate]. intros Hm.
        pose proof (match_tail_length _ _ Hm).
        replace (length (c :: s) - length rest)%nat
          with (S (length s - length rest)) by (simpl; lia).
        cbn [Re.sub_from]. apply IH1. exact Hm.
Qed.

Lemma sub_bracket s :
  Re.sub bracket_re [] s = remove_bracketed false s.
Proof. apply sub_bracket_both. Qed.

(** ** Whitespace runs and trimming *)

Lemma isspace_SPACE : isspace SPACE = true.
Proof. reflexivity. Qed.

Lemma collapse_true_lstrip s :
  collapse_spaces true s = collapse_spaces false (lstrip s).
Proof.
  induction s as [|c s IH]; [reflexivity|].
  cbn [lstrip]. destruct (isspace c) eqn:Hc.
  - simpl. rewrite Hc. exact IH.
  - rewrite !collapse_nonspace_flag by assumption. reflexivity.
Qed.

Lemma lstrip_head s :
  lstrip s = [] \/ exists d u, lstrip s = d :: u /\ isspace d = false.
Proof.
  induction s as [|c s IH]; [left; reflexivity|].
  simpl. destruct (isspace c) eqn:Hc; [exact IH|].
  right. eauto.
Qed.

Lemma lstrip_collapse s :
  lstrip (collapse_spaces false s) = collapse_spaces false (lstrip s).
Proof.
  destruct s as [|c s]; [reflexivity|].
  cbn [collapse_spaces lstrip]. destruct (isspace c) eqn:Hc.
  - cbn [lstrip]. rewrite isspace_SPACE, collapse_true_lstrip.
    destruct (lstrip_head s) as [->|(d & u & -> & Hd)]; [reflexivity|].
    rewrite collapse_nonspace_flag by assumption. simpl. rewrite Hd.
    reflexivity.
  - simpl. rewrite Hc. reflexivity.
Qed.

Lemma forallb_collapse b s :
  forallb isspace (collapse_spaces b s) = forallb isspace s.
Proof.
  revert b. induction s as [|c s IH]; intros b; [reflexivity|].
  simpl. destruct (isspace c) eqn:Hc.
  - destruct b; simpl; rewrite ?isspace_SPACE; apply IH.
  - simpl. rewrite Hc. reflexivity.
Qed.

Lemma collapse_all_space s :
  forallb isspace s = true -> collapse_spaces true s = [].
Proof.
  induction s as [|c s IH]; [reflexivity|].
  simpl. destruct (isspace c); [|discriminate]. exact IH.
Qed.

Lemma rstrip_collapse b s :
  rstrip (collapse_spaces b s) = collapse_spaces b (rstrip s).
Proof.
  revert b. induction s as [|c s IH]; intros b; [reflexivity|].
  cbn [rstrip]. cbn [forallb]. destruct (isspace c) eqn:Hc.
  - rewrite andb_true_l. destruct (forallb isspace s) eqn:Hs.
    + simpl. rewrite Hc, (collapse_all_space s Hs).
      destruct b; reflexivity.
    + simpl. rewrite Hc. destruct b.
      * apply IH.
      * simpl. rewrite forallb_collapse, Hs. simpl. f_equal. apply IH.
  - rewrite andb_false_l. rewrite !collapse_nonspace_flag by assumption.
    simpl. rewrite Hc. simpl. f_equal. apply IH.
Qed.

Lemma collapse_strip s :
  collapse_spaces false (strip s) = strip (collapse_spaces false s).
Proof.
  unfold strip. rewrite <- rstrip_collapse, lstrip_collapse. reflexivity.
Qed.

Lemma normalize_pipeline isalnum lower (name : pyval) :
  normalize_song_name isalnum lower name = normalize_steps isalnum lower name.
Proof.
  destruct name as [s| |]; try reflexivity.
  unfold normalize_song_name, normalize_steps.
  rewrite sub_spaces, sub_special, sub_bracket. apply collapse_strip.
Qed.

(** ** C4 *)

(** C4, as the source has it: on every string the normalizer is the
    pipeline "delete each stretch from an opening bracket to the first
    closing bracket of either kind on the same line; delete what is
    neither alphanumeric, underscore nor whitespace; lower case; collapse
    whitespace runs to one space; trim", and on every other value it is
    the empty string. *)
Theorem normalize_song_name_steps isalnum lower (name : pyval) :
  normalize_song_name isalnum lower name = normalize_steps isalnum lower name.
Proof.
  destruct name as [s| |].
  - unfold normalize_song_name, normalize_steps.
    rewrite sub_spaces, sub_special, sub_bracket.
    unfold strip. rewrite <- rstrip_collapse, lstrip_collapse. reflexivity.
  - reflexivity.
  - reflexivity.
Qed.

(** C4 as worded fails on a bracket closed by the other kind: the source
    deletes "(b]" and keeps "c", the worded steps delete "(b]c)". *)
Lemma normalize_spec_mismatch :
  normalize_song_name ascii_isalnum ascii_lower (PyStr (str "a(b]c)d"))
    = str "acd"
  /\ normalize_spec ascii_isalnum ascii_lower (PyStr (str "a(b]c)d"))
    = str "ad"
  /\ normalize_song_name ascii_isalnum ascii_lower (PyStr (str "a(b]c)d"))
     <> normalize_spec ascii_isalnum ascii_lower (PyStr (str "a(b]c)d")).
Proof. repeat split; vm_compute; congruence. Qed.

(** The underscore is a word character and survives. *)
Example normalize_keeps_underscore :
  normalize_song_name ascii_isalnum ascii_lower (PyStr (str "a_b"))
    = str "a_b"
  /\ normalize_spec ascii_isalnum ascii_lower (PyStr (str "a_b")) = str "ab".
Proof. split; reflexivity. Qed.

(** A bracket whose partner is on a later line is not a stretch: only the
    two bracket characters go. *)
Example normalize_bracket_across_lines :
  normalize_song_name ascii_isalnum ascii_lower
    (PyStr ([0x61; LPAREN; 0x62; NEWLINE; 0x63; RPAREN; 0x64]))
  = str "ab cd".
Proof. reflexivity. Qed.

Example normalize_ex1 :
  normalize_song_name ascii_isalnum ascii_lower
    (PyStr (str "Song (Live Version) [Remastered].mp3")) = str "song mp3".
Proof. reflexivity. Qed.

(** ** Idempotence and case on ASCII *)

Lemma ascii_codes_complete c : is_ascii c = true -> In c ascii_codes.
Proof.
  unfold is_ascii, ascii_codes. intros H. apply N.ltb_lt in H.
  rewrite <- (N2Nat.id c). apply in_map. apply in_seq. lia.
Qed.

Lemma ascii_check (P : N -> bool) c :
  forallb P ascii_codes = true -> is_ascii c = true -> P c = true.
Proof.
  intros HP Hc. rewrite forallb_forall in HP.
  apply HP, ascii_codes_complete, Hc.
Qed.

Lemma lower_char_nonascii c :
  is_ascii c = false -> ascii_lower_char c = c.
Proof.
  unfold is_ascii, ascii_lower_char. intros H. apply N.ltb_ge in H.
  destruct (N.leb_spec 0x41 c); [|reflexivity].
  destruct (N.leb_spec c 0x5A); [lia|reflexivity].
Qed.

(** A fact about a character and its lower case holds everywhere as soon
    as it holds on ASCII and for characters the table leaves alone. *)
Lemma lower_char_check (P : N -> N -> bool) c :
  forallb (fun c => P (ascii_lower_char c) c) ascii_codes = true ->
  (forall c, P c c = true) ->
  P (ascii_lower_char c) c = true.
Proof.
  intros Hascii Hrefl. destruct (is_ascii c) eqn:Hc.
  - exact (ascii_check (fun c => P (ascii_lower_char c) c) c Hascii Hc).
  - rewrite (lower_char_nonascii c Hc). apply Hrefl.
Qed.

Ltac lower_char_fact f :=
  let c := fresh "c" in
  intros c;
  apply Bool.eqb_prop;
  apply (lower_char_check (fun d c => Bool.eqb (f d) (f c)));
  [vm_compute; reflexivity | intros; apply Bool.eqb_reflx].




Lemma is_underscore_lower c :
  (ascii_lower_char c =? UNDERSCORE) = (c =? UNDERSCORE).
Proof. revert c. lower_char_fact (fun c => c =? UNDERSCORE). Qed.

Lemma isspace_lower c : isspace (ascii_lower_char c) = isspace c.
Proof. revert c. lower_char_fact isspace. Qed.

Lemma ascii_isalnum_lower c :
  ascii_isalnum (ascii_lower_char c) = ascii_isalnum c.
Proof. revert c. lower_char_fact ascii_isalnum. Qed.

Lemma is_ascii_lower c : is_ascii (ascii_lower_char c) = is_ascii c.
Proof. revert c. lower_char_fact is_ascii. Qed.

Lemma lower_char_idem c :
  ascii_lower_char (ascii_lower_char c) = ascii_lower_char c.
Proof.
  destruct (is_ascii c) eqn:Hc.
  - apply N.eqb_eq.
    apply (ascii_check
             (fun c => ascii_lower_char (ascii_lower_char c)
                       =? ascii_lower_char c)); [|exact Hc].
    vm_compute. reflexivity.
  - rewrite !(lower_char_nonascii c Hc). reflexivity.
Qed.

(** *** Each step keeps a property of the characters *)

Lemma remove_bracketed_Forall (P : N -> Prop) b s :
  Forall P s -> Forall P (remove_bracketed b s).
Proof.
  intros H. revert b. induction H as [|c s Hc Hs IH]; intros b; simpl.
  - constructor.
  - destruct b; [apply IH|].
    destruct (is_open c && closes_on_line s); [apply IH|].
    constructor; [exact Hc | apply IH].
Qed.

Lemma filter_Forall (P : N -> Prop) f s :
  Forall P s -> Forall (fun c => P c /\ f c = true) (List.filter f s).
Proof.
  induction 1 as [|c s Hc Hs IH]; simpl; [constructor|].
  destruct (f c) eqn:Hf; [constructor; auto | exact IH].
Qed.

Lemma lstrip_Forall (P : N -> Prop) s : Forall P s -> Forall P (lstrip s).
Proof.
  induction 1 as [|c s Hc Hs IH]; simpl; [constructor|].
  destruct (isspace c); [exact IH | constructor; assumption].
Qed.

Lemma rstrip_Forall (P : N -> Prop) s : Forall P s -> Forall P (rstrip s).
Proof.
  induction 1 as [|c s Hc Hs IH]; [constructor|].
  cbn [rstrip]. destruct (forallb isspace (c :: s)); constructor; assumption.
Qed.

Lemma strip_Forall (P : N -> Prop) s : Forall P s -> Forall P (strip s).
Proof. intros H. apply rstrip_Forall, lstrip_Forall, H. Qed.

Lemma collapse_Forall (P Q : N -> Prop) b s :
  Q SPACE -> (forall c, P c -> isspace c = false -> Q c) ->
  Forall P s -> Forall Q (collapse_spaces b s).
Proof.
  intros HS HPQ H. revert b.
  induction H as [|c s Hc Hs IH]; intros b; simpl; [constructor|].
  destruct (isspace c) eqn:Hsp.
  - destruct b; [apply IH | constructor; [exact HS | apply IH]].
  - constructor; [apply HPQ; assumption | apply IH].
Qed.

(** *** Steps that leave a normalized string alone *)




Lemma collapse_idem b s :
  collapse_spaces b (collapse_spaces b s) = collapse_spaces b s.
Proof.
  revert b. induction s as [|c s IH]; intros b; [reflexivity|].
  simpl. destruct (isspace c) eqn:Hc.
  - destruct b; [apply IH|].
    simpl. f_equal. apply IH.
  - simpl. rewrite Hc. f_equal. apply IH.
Qed.

Lemma forallb_rstrip s : forallb isspace (rstrip s) = forallb isspace s.
Proof.
  induction s as [|c s IH]; [reflexivity|].
  cbn [rstrip]. destruct (forallb isspace (c :: s)) eqn:H; [reflexivity|].
  cbn [forallb] in *. rewrite IH. exact H.
Qed.

Lemma rstrip_idem s : rstrip (rstrip s) = rstrip s.
Proof.
  induction s as [|c s IH]; [reflexivity|].
  cbn [rstrip]. destruct (forallb isspace (c :: s)) eqn:H; [reflexivity|].
  cbn [rstrip forallb] in *. rewrite forallb_rstrip, H, IH. reflexivity.
Qed.

Lemma lstrip_rstrip_lstrip s : lstrip (rstrip (lstrip s)) = rstrip (lstrip s).
Proof.
  destruct (lstrip_head s) as [->|(d & u & -> & Hd)]; [reflexivity|].
  cbn [rstrip forallb]. rewrite Hd. simpl. rewrite Hd. reflexivity.
Qed.

Lemma strip_idem s : strip (strip s) = strip s.
Proof.
  unfold strip. rewrite lstrip_rstrip_lstrip. apply rstrip_idem.
Qed.

(** *** The normalizer with the ASCII tables *)





Lemma normalize_ascii_normal s :
  all_ascii s ->
  Forall normal_char (normalize_steps ascii_isalnum ascii_lower (PyStr s)).
Proof.
  intros Hs. unfold normalize_steps, keep_word_or_space, ascii_lower.
  apply strip_Forall.
  apply collapse_Forall with
    (P := fun d => is_ascii d = true
                   /\ isword ascii_isalnum d || isspace d = true
                   /\ ascii_lower_char d = d).
  - left. reflexivity.
  - intros c (Ha & Hk & Hl) Hsp. right. rewrite Hsp, orb_false_r in Hk. auto.
  - apply Forall_map.
    eapply Forall_impl;
      [apply filter_Forall, remove_bracketed_Forall, Hs|].
    intros c [Ha Hk]. cbn beta in *.
    rewrite is_ascii_lower, lower_char_idem. unfold isword in *.
    rewrite ascii_isalnum_lower, is_underscore_lower, isspace_lower. auto.
Qed.






(** *** Any tables that agree with them on ASCII *)

Section AsciiTables.

Variable isalnum : N -> bool.
Variable lower : pystr -> pystr.
Hypothesis isalnum_ascii :
  forall c, is_ascii c = true -> isalnum c = ascii_isalnum c.
Hypothesis lower_ascii : forall s, all_ascii s -> lower s = ascii_lower s.

Lemma filter_ext_Forall (f g : N -> bool) (P : N -> Prop) s :
  (forall c, P c -> f c = g c) -> Forall P s ->
  List.filter f s = List.filter g s.
Proof.
  intros Hfg. induction 1 as [|c s Hc Hs IH]; [reflexivity|].
  simpl. rewrite (Hfg c Hc), IH. reflexivity.
Qed.

Lemma normalize_ascii_tables name :
  ascii_input name ->
  normalize_song_name isalnum lower name
  = normalize_song_name ascii_isalnum ascii_lower name.
Proof.
  destruct name as [s| |]; try reflexivity.
  intros Hs. simpl in Hs. rewrite !normalize_pipeline.
  unfold normalize_steps, keep_word_or_space.
  pose proof (remove_bracketed_Forall _ false s Hs) as Hrb.
  rewrite (filter_ext_Forall
             (fun c => isword isalnum c || isspace c)
             (fun c => isword ascii_isalnum c || isspace c)
             (fun c => is_ascii c = true) (remove_bracketed false s));
    [| intros c Hc; unfold isword; rewrite (isalnum_ascii c Hc); reflexivity
     | exact Hrb].
  rewrite lower_ascii; [reflexivity|].
  eapply Forall_impl; [apply (filter_Forall _ _ _ Hrb)|].
  intros c [Hc _]. exact Hc.
Qed.


End AsciiTables.

(** ** C8 *)




(** Outside ASCII a second pass can change the result: the lower case of
    U+0130 is "i" followed by the combining dot U+0307, which is not a
    word character and goes on the next pass. *)
Example normalize_not_idempotent_dotted_I :
  normalize_song_name ex_isalnum ex_lower (PyStr [0x130]) = [0x69; 0x307]
  /\ normalize_song_name ex_isalnum ex_lower (PyStr [0x69; 0x307]) = [0x69].
Proof. split; reflexivity. Qed.

(** ** Name resolver *)

Lemma Qltb_lt a b : Qltb a b = true <-> (a < b)%Q.
Proof.
  unfold Qltb. rewrite Bool.negb_true_iff, <- Bool.not_true_iff_false.
  rewrite Qle_bool_iff. split; [apply Qnot_le_lt | apply Qlt_not_le].
Qed.

Lemma Qltb_ge a b : Qltb a b = false <-> (b <= a)%Q.
Proof.
  unfold Qltb. rewrite Bool.negb_false_iff. apply Qle_bool_iff.
Qed.

Lemma is_prefix_spec p s : is_prefix p s = true <-> exists t, s = p ++ t.
Proof.
  revert s. induction p as [|a p IH]; intros s; simpl.
  - split; eauto.
  - destruct s as [|b s].
    + split; [discriminate | intros [t Ht]; discriminate].
    + rewrite andb_true_iff, N.eqb_eq, IH. split.
      * intros [-> [t ->]]. eauto.
      * intros [t [= -> ->]]. eauto.
Qed.

Lemma contains_spec needle hay :
  contains needle hay = true <-> is_substring needle hay.
Proof.
  unfold is_substring. induction hay as [|c hay IH].
  - cbn [contains]. rewrite orb_false_r, is_prefix_spec. split.
    + intros [t Ht]. exists [], t. exact Ht.
    + intros (b & a & H). symmetry in H.
      apply app_eq_nil in H as [-> H]. apply app_eq_nil in H as [-> ->].
      exists []. reflexivity.
  - cbn [contains]. rewrite orb_true_iff, is_prefix_spec, IH. split.
    + intros [[t Ht]|(b & a & Ht)].
      * exists [], t. exact Ht.
      * exists (c :: b), a. rewrite Ht. reflexivity.
    + intros ([|d b] & a & Ht).
      * left. exists a. exact Ht.
      * right. injection Ht as -> ->. eauto.
Qed.

Lemma match_score_substring nt cs :
  is_substring nt cs \/ is_substring cs nt -> match_score nt cs = 1%Q.
Proof.
  intros H. unfold match_score.
  rewrite <- !contains_spec, <- orb_true_iff in H. rewrite H. reflexivity.
Qed.

Lemma match_score_words nt cs :
  ~ (is_substring nt cs \/ is_substring cs nt) ->
  (match_score nt cs ==
   inject_Z (Z.of_nat (size (word_set nt ∩ word_set cs)))
   / inject_Z (Z.of_nat (Nat.max (size (word_set nt)) 1)))%Q.
Proof.
  intros H. unfold match_score.
  rewrite <- !contains_spec, <- orb_true_iff in H.
  apply Bool.not_true_is_false in H. rewrite H.
  rewrite Qmake_Qdiv. f_equiv. f_equiv.
  rewrite <- positive_nat_Z, Nat2Pos.id by lia. reflexivity.
Qed.

Lemma match_score_disjoint nt cs :
  contains nt cs = false -> contains cs nt = false ->
  word_set nt ## word_set cs ->
  (match_score nt cs == 0)%Q.
Proof.
  intros H1 H2 Hd. unfold match_score. rewrite H1, H2. simpl.
  apply disjoint_intersection_L in Hd. rewrite Hd, size_empty.
  reflexivity.
Qed.

(** What the loop leaves in [(best_match_idx, best_match_score)]: either
    no candidate beat the score it started from, or the first candidate
    that reaches the highest score did. *)
Lemma best_match_from_spec nt cands : forall idx best,
  let r := best_match_from nt idx cands best in
  (r = best
   /\ forall j c, cands !! j = Some c -> (match_score nt c <= snd best)%Q)
  \/ exists j c,
       cands !! j = Some c
       /\ r = (Z.of_nat (idx + j), match_score nt c)
       /\ (snd best < match_score nt c)%Q
       /\ (forall j' c', (j' < j)%nat -> cands !! j' = Some c' ->
             (match_score nt c' < match_score nt c)%Q)
       /\ (forall j' c', cands !! j' = Some c' ->
             (match_score nt c' <= match_score nt c)%Q).
Proof.
  induction cands as [|c rest IH]; intros idx best; cbn zeta.
  - left. split; [reflexivity|]. intros j c Hj. discriminate.
  - cbn [best_match_from]. unfold update_best. cbv zeta.
    destruct (Qltb (snd best) (match_score nt c)) eqn:Hlt.
    + apply Qltb_lt in Hlt.
      destruct (IH (S idx) (Z.of_nat idx, match_score nt c))
        as [[Hr Hall]|(j & c2 & Hj & Hr & Hgt & Hfirst & Hmax)];
        cbn [snd] in *.
      * right. exists 0%nat, c. rewrite Hr, Nat.add_0_r.
        repeat split; auto.
        -- intros j' c' Hj'. lia.
        -- intros [|j'] c' Hj'; [injection Hj' as ->; apply Qle_refl|].
           apply (Hall j' c' Hj').
      * right. exists (S j), c2. rewrite Hr.
        replace (S idx + j)%nat with (idx + S j)%nat by lia.
        repeat split; auto.
        -- eapply Qlt_trans; eassumption.
        -- intros [|j'] c' Hlt' Hj'; [injection Hj' as ->; exact Hgt|].
           apply (Hfirst j' c'); [lia | exact Hj'].
        -- intros [|j'] c' Hj';
             [injection Hj' as ->; apply Qlt_le_weak, Hgt|].
           apply (Hmax j' c' Hj').
    + apply Qltb_ge in Hlt.
      destruct (IH (S idx) best)
        as [[Hr Hall]|(j & c2 & Hj & Hr & Hgt & Hfirst & Hmax)].
      * left. split; [exact Hr|].
        intros [|j'] c' Hj'; [injection Hj' as ->; exact Hlt|].
        apply (Hall j' c' Hj').
      * right. exists (S j), c2. rewrite Hr.
        replace (S idx + j)%nat with (idx + S j)%nat by lia.
        repeat split; auto.
        -- intros [|j'] c' Hlt' Hj';
             [injection Hj' as ->; eapply Qle_lt_trans; eassumption|].
           apply (Hfirst j' c'); [lia | exact Hj'].
        -- intros [|j'] c' Hj'.
           ++ injection Hj' as ->. apply Qlt_le_weak.
              eapply Qle_lt_trans; eassumption.
           ++ apply (Hmax j' c' Hj').
Qed.

Section ResolverFacts.

Variable isalnum : N -> bool.
Variable lower : pystr -> pystr.

Let normalize := normalize_song_name isalnum lower.
Let score (q n : pyval) : Q := match_score (normalize q) (normalize n).

Lemma resolve_cases q names :
  (resolve isalnum lower q names = None
   /\ forall j n, names !! j = Some n -> (score q n < THRESHOLD)%Q)
  \/ exists i n,
       resolve isalnum lower q names = Some i
       /\ names !! i = Some n
       /\ (THRESHOLD <= score q n)%Q
       /\ (forall j m, names !! j = Some m -> (score q m <= score q n)%Q)
       /\ (forall j m, (j < i)%nat -> names !! j = Some m ->
             (score q m < score q n)%Q).
Proof.
  unfold resolve.
  pose proof (best_match_from_spec (normalize q) (map normalize names)
                0 ((-1)%Z, 0%Q)) as H.
  cbn zeta in H. fold normalize.
  destruct H as [[Hr Hall]|(j & c & Hj & Hr & Hgt & Hfirst & Hmax)].
  - rewrite Hr. left. split; [reflexivity|].
    intros j n Hj. apply (Qle_lt_trans _ 0%Q); [|reflexivity].
    apply (Hall j (normalize n)).
    change (map normalize names) with (normalize <$> names).
    rewrite list_lookup_fmap, Hj. reflexivity.
  - change (map normalize names) with (normalize <$> names) in *.
    rewrite list_lookup_fmap in Hj.
    destruct (names !! j) as [n|] eqn:Hn; [|discriminate].
    injection Hj as <-. rewrite Hr. cbn [Nat.add].
    assert (Hlk : forall j' m, names !! j' = Some m ->
                    (normalize <$> names) !! j' = Some (normalize m)).
    { intros j' m Hm. rewrite list_lookup_fmap, Hm. reflexivity. }
    replace (Z.of_nat j =? -1)%Z with false by (symmetry; apply Z.eqb_neq; lia).
    cbn [orb]. destruct (Qltb (match_score (normalize q) (normalize n))
                           THRESHOLD) eqn:Hth.
    + left. split; [reflexivity|]. apply Qltb_lt in Hth.
      intros j' m Hm. eapply Qle_lt_trans; [|exact Hth].
      apply (Hmax j' _ (Hlk _ _ Hm)).
    + right. exists j, n. rewrite Nat2Z.id. apply Qltb_ge in Hth.
      repeat split; auto.
      * intros j' m Hm. apply (Hmax j' _ (Hlk _ _ Hm)).
      * intros j' m Hlt Hm. apply (Hfirst j' _ Hlt (Hlk _ _ Hm)).
Qed.

End ResolverFacts.

(** ** C1 *)

(** C1: a candidate scores 1 when the normalized query occurs in the
    normalized candidate or the other way round, and otherwise the number
    of words common to both over the number of words of the query (at
    least 1); the resolver returns index [i] exactly when candidate [i]
    scores at least 0.3, no candidate scores more, and every candidate
    before it scores strictly less; it returns nothing exactly when every
    candidate scores below 0.3, in particular when there is none. *)
Theorem resolve_spec isalnum lower (q : pyval) (names : list pyval) :
  let normalize := normalize_song_name isalnum lower in
  let score n := match_score (normalize q) (normalize n) in
  (forall n, is_substring (normalize q) (normalize n)
             \/ is_substring (normalize n) (normalize q) ->
             score n = 1%Q)
  /\ (forall n, ~ (is_substring (normalize q) (normalize n)
                   \/ is_substring (normalize n) (normalize q)) ->
        (score n ==
         inject_Z (Z.of_nat (size (word_set (normalize q)
                                   ∩ word_set (normalize n))))
         / inject_Z (Z.of_nat (Nat.max (size (word_set (normalize q))) 1)))%Q)
  /\ (forall i,
        resolve isalnum lower q names = Some i <->
        exists n, names !! i = Some n
          /\ (THRESHOLD <= score n)%Q
          /\ (forall j m, names !! j = Some m -> (score m <= score n)%Q)
          /\ (forall j m, (j < i)%nat -> names !! j = Some m ->
                (score m < score n)%Q))
  /\ (resolve isalnum lower q names = None <->
      forall j n, names !! j = Some n -> (score n < THRESHOLD)%Q).
Proof.
  cbv zeta. split; [|split; [|split]].
  - intros n. apply match_score_substring.
  - intros n. apply match_score_words.
  - intros i. split.
    + intros Hi.
      destruct (resolve_cases isalnum lower q names)
        as [[Hn _]|(i' & n & Hr & Hn & Hth & Hmax & Hfirst)];
        [congruence|].
      rewrite Hr in Hi. injection Hi as <-. eauto.
    + intros (n & Hn & Hth & Hmax & Hfirst).
      destruct (resolve_cases isalnum lower q names)
        as [[_ Hall]|(i' & n' & Hr & Hn' & Hth' & Hmax' & Hfirst')].
      * exfalso. apply (Qlt_not_le _ _ (Hall i n Hn)), Hth.
      * rewrite Hr. f_equal.
        destruct (Nat.lt_trichotomy i' i) as [Hlt|[Heq|Hgt]]; [|exact Heq|].
        -- exfalso. apply (Qlt_not_le _ _ (Hfirst i' n' Hlt Hn')).
           apply (Hmax' i n Hn).
        -- exfalso. apply (Qlt_not_le _ _ (Hfirst' i n Hgt Hn)).
           apply (Hmax i' n' Hn').
  - split.
    + intros Hnone.
      destruct (resolve_cases isalnum lower q names)
        as [[_ Hall]|(i' & n & Hr & _)]; [exact Hall | congruence].
    + intros Hall.
      destruct (resolve_cases isalnum lower q names)
        as [[Hn _]|(i' & n & Hr & Hn & Hth & _)]; [exact Hn|].
      exfalso. apply (Qlt_not_le _ _ (Hall i' n Hn)), Hth.
Qed.

Example resolve_ex_token_overlap :
  resolve ascii_isalnum ascii_lower (PyStr (str "song live"))
    [PyStr (str "Other Track.mp3");
     PyStr (str "Song (Live Version) [Remastered].mp3");
     PyStr (str "A Song.mp3")]
  = Some 1%nat.
Proof. reflexivity. Qed.

Example resolve_ex_empty :
  resolve ascii_isalnum ascii_lower (PyStr (str "song")) [] = None.
Proof. reflexivity. Qed.

(** ** C9 *)

(** C9, as the source has it: when, for every candidate, the normalized
    query and the normalized candidate have no word in common and neither
    occurs inside the other, every candidate scores 0 and the resolver
    returns nothing. *)
Theorem resolve_no_overlap isalnum lower (q : pyval) (names : list pyval) :
  let normalize := normalize_song_name isalnum lower in
  (forall n, n ∈ names ->
     ~ is_substring (normalize q) (normalize n)
     /\ ~ is_substring (normalize n) (normalize q)
     /\ word_set (normalize q) ## word_set (normalize n)) ->
  resolve isalnum lower q names = None
  /\ forall n, n ∈ names ->
       (match_score (normalize q) (normalize n) == 0)%Q.
Proof.
  cbv zeta. intros H.
  assert (Hzero : forall n, n ∈ names ->
            (match_score (normalize_song_name isalnum lower q)
               (normalize_song_name isalnum lower n) == 0)%Q).
  { intros n Hn. destruct (H n Hn) as (H1 & H2 & Hd).
    rewrite <- contains_spec in H1, H2.
    apply match_score_disjoint; [| |exact Hd];
      apply Bool.not_true_is_false; assumption. }
  split; [|exact Hzero].
  destruct (resolve_cases isalnum lower q names)
    as [[Hnone _]|(i & n & _ & Hn & Hth & _)]; [exact Hnone|].
  exfalso. rewrite (Hzero n) in Hth by (apply list_elem_of_lookup; eauto).
  revert Hth. apply Qlt_not_le. reflexivity.
Qed.

Lemma resolve_no_overlap_witness :
  resolve ascii_isalnum ascii_lower (PyStr (str "Night Drive"))
    [PyStr (str "Morning Walk.mp3"); PyStr (str "Sunset (Live)")]
  = None.
Proof.
  apply (resolve_no_overlap ascii_isalnum ascii_lower).
  intros n Hn. rewrite <- !contains_spec.
  repeat (apply elem_of_cons in Hn as [->|Hn];
          [repeat split;
           [vm_compute; discriminate | vm_compute; discriminate
           | apply disjoint_intersection_L; vm_compute; reflexivity]|]).
  apply elem_of_nil in Hn. destruct Hn.
Defined.

(** C9 as worded fails when the query occurs inside a candidate without
    being one of its words: "a" and "cat" share no word, yet "a" is found
    in "cat", the score is 1 and row 0 is returned. *)
Lemma resolve_substring_without_common_word :
  word_set (normalize_song_name ascii_isalnum ascii_lower (PyStr (str "a")))
    ## word_set (normalize_song_name ascii_isalnum ascii_lower
                   (PyStr (str "cat")))
  /\ match_score
       (normalize_song_name ascii_isalnum ascii_lower (PyStr (str "a")))
       (normalize_song_name ascii_isalnum ascii_lower (PyStr (str "cat")))
     = 1%Q
  /\ resolve ascii_isalnum ascii_lower (PyStr (str "a")) [PyStr (str "cat")]
     = Some 0%nat.
Proof.
  repeat split; [|reflexivity..].
  apply disjoint_intersection_L. vm_compute. reflexivity.
Qed.

(** ** Recommendation selector *)

Lemma first_other_Some t L j :
  first_other t L = Some j ->
  exists p, L !! p = Some j /\ j <> t
            /\ forall p' x, (p' < p)%nat -> L !! p' = Some x -> x = t.
Proof.
  unfold first_other. induction L as [|a L IH]; [discriminate|].
  simpl. destruct (Nat.eqb_spec a t) as [->|Hne]; simpl.
  - intros H. destruct (IH H) as (p & Hp & Hj & Hfirst).
    exists (S p). repeat split; auto.
    intros [|p'] x Hlt Hx; [injection Hx as <-; reflexivity|].
    apply (Hfirst p' x); [lia | exact Hx].
  - intros [= <-]. exists 0%nat. repeat split; auto. intros p' x Hlt. lia.
Qed.

Lemma first_other_None t L :
  first_other t L = None <-> forall x, x ∈ L -> x = t.
Proof.
  unfold first_other. induction L as [|a L IH]; simpl.
  - split; [intros _ x Hx; apply elem_of_nil in Hx; destruct Hx | reflexivity].
  - destruct (Nat.eqb_spec a t) as [->|Hne]; simpl.
    + rewrite IH. split.
      * intros H x Hx. apply elem_of_cons in Hx as [->|Hx]; auto.
      * intros H x Hx. apply H. apply elem_of_cons. auto.
    + split; [discriminate|]. intros H. exfalso. apply Hne, H.
      apply elem_of_cons. auto.
Qed.

Lemma value_at_lookup r a x : r !! a = Some x -> value_at r a = x.
Proof. intros H. unfold value_at. rewrite nth_lookup, H. reflexivity. Qed.

(** *** The insertion sort meets the contract of [argsort] *)

Lemma insert_index_perm r i l : insert_index r i l ≡ₚ i :: l.
Proof.
  induction l as [|j l IH]; simpl; [reflexivity|].
  destruct (Qltb (value_at r i) (value_at r j)); [reflexivity|].
  rewrite IH. apply perm_swap.
Qed.

Lemma fold_insert_perm r l acc :
  fold_left (fun acc i => insert_index r i acc) l acc ≡ₚ l ++ acc.
Proof.
  revert acc. induction l as [|i l IH]; intros acc; simpl; [reflexivity|].
  rewrite IH, insert_index_perm. symmetry. apply Permutation_middle.
Qed.

Lemma insert_index_sorted r i l :
  StronglySorted (fun a b => (value_at r a <= value_at r b)%Q) l ->
  StronglySorted (fun a b => (value_at r a <= value_at r b)%Q)
                 (insert_index r i l).
Proof.
  induction 1 as [|j l Hl IH Hj]; simpl.
  - repeat constructor.
  - destruct (Qltb (value_at r i) (value_at r j)) eqn:Hlt.
    + apply Qltb_lt in Hlt. constructor; [constructor; assumption|].
      constructor; [apply Qlt_le_weak, Hlt|].
      eapply Forall_impl; [exact Hj|]. intros b Hb. simpl in *.
      eapply Qle_trans; [apply Qlt_le_weak, Hlt | exact Hb].
    + apply Qltb_ge in Hlt. constructor; [exact IH|].
      rewrite insert_index_perm. constructor; assumption.
Qed.

Lemma fold_insert_sorted r l acc :
  StronglySorted (fun a b => (value_at r a <= value_at r b)%Q) acc ->
  StronglySorted (fun a b => (value_at r a <= value_at r b)%Q)
    (fold_left (fun acc i => insert_index r i acc) l acc).
Proof.
  revert acc. induction l as [|i l IH]; intros acc H; simpl; [exact H|].
  apply IH, insert_index_sorted, H.
Qed.

Lemma StronglySorted_lookup_lt (R : nat -> nat -> Prop) l p q a b :
  StronglySorted R l -> (p < q)%nat ->
  l !! p = Some a -> l !! q = Some b -> R a b.
Proof.
  intros H. revert p q. induction H as [|c l Hl IH Hc]; intros p q Hpq Hp Hq.
  - discriminate.
  - destruct q as [|q]; [lia|]. destruct p as [|p].
    + injection Hp as <-. rewrite Forall_forall in Hc. apply Hc.
      apply list_elem_of_lookup. eauto.
    + apply (IH p q); [lia | exact Hp | exact Hq].
Qed.

Lemma argsort_stable_spec : argsort_spec argsort_stable.
Proof.
  intros r. unfold argsort_stable. split.
  - rewrite fold_insert_perm, app_nil_r. reflexivity.
  - intros p q a b x y Hpq Ha Hb Hx Hy.
    destruct (decide (p = q)) as [->|Hne].
    + rewrite Ha in Hb. injection Hb as <-. rewrite Hx in Hy.
      injection Hy as <-. apply Qle_refl.
    + rewrite <- (value_at_lookup r a x Hx), <- (value_at_lookup r b y Hy).
      eapply (StronglySorted_lookup_lt
                (fun a b => (value_at r a <= value_at r b)%Q));
        [apply fold_insert_sorted; constructor| |exact Ha|exact Hb].
      lia.
Qed.

(** ** C3 *)



Example recommend_ex_skips_self :
  recommend argsort_stable 0
    [[9#10; 2#10; 7#10]; [1#10; 8#10; 3#10]; [4#10; 6#10; 5#10]]%Q
  = Return (Some 2%nat).
Proof. reflexivity. Qed.

Example recommend_ex_single_row :
  recommend argsort_stable 0 [[1]]%Q = Return None.
Proof. reflexivity. Qed.

(** ** C10 *)

Lemma getitem_raises df col e : getitem df col = Raise e -> e = KeyError.
Proof.
  unfold getitem. destruct (columns df !! col); [discriminate|].
  intros [= <-]. reflexivity.
Qed.

Lemma iloc_filename_raises df idx e :
  iloc_filename df idx = Raise e -> is_Exception e = true.
Proof.
  unfold iloc_filename. destruct (getitem df "filename") as [cells|e'] eqn:Hg.
  - simpl. destruct (cells !! idx); [discriminate|].
    intros [= <-]. reflexivity.
  - simpl. intros [= <-]. rewrite (getitem_raises _ _ _ Hg). reflexivity.
Qed.

Lemma item_raises sims idx e : item sims idx = Raise e -> e = IndexError.
Proof.
  unfold item. destruct (sims !! idx); [discriminate|].
  intros [= <-]. reflexivity.
Qed.

Lemma debug_top_raises df sims t idxs e :
  debug_top df sims t idxs = Raise e -> is_Exception e = true.
Proof.
  induction idxs as [|idx rest IH]; simpl; [discriminate|].
  destruct (idx =? t)%nat; [exact IH|].
  destruct (item sims idx) as [v|e'] eqn:Hi; simpl.
  - destruct (iloc_filename df idx) as [w|e''] eqn:Hf; simpl; [exact IH|].
    intros [= <-]. eapply iloc_filename_raises, Hf.
  - intros [= <-]. rewrite (item_raises _ _ _ Hi). reflexivity.
Qed.

Lemma find_best_body_raises isalnum lower argsort target df m e :
  find_best_body isalnum lower argsort target df m = Raise e ->
  is_Exception e = true.
Proof.
  unfold find_best_body.
  destruct (getitem df "filename") as [names|e'] eqn:Hg; simpl.
  2:{ intros [= <-]. rewrite (getitem_raises _ _ _ Hg). reflexivity. }
  destruct (resolve isalnum lower target names) as [t|]; [|discriminate].
  destruct (iloc_filename df t) as [v|e'] eqn:Hf; simpl.
  2:{ intros [= <-]. eapply iloc_filename_raises, Hf. }
  unfold matrix_row. destruct (m !! t) as [sims|]; simpl.
  2:{ intros [= <-]. reflexivity. }
  destruct (debug_top df sims t (take 5 (reverse (argsort sims))))
    as [u|e'] eqn:Hd; simpl.
  2:{ intros [= <-]. eapply debug_top_raises, Hd. }
  destruct (first_other t (reverse (argsort sims))) as [idx|]; [|discriminate].
  destruct (iloc_filename df idx) as [w|e'] eqn:Hw; simpl; [discriminate|].
  intros [= <-]. eapply iloc_filename_raises, Hw.
Qed.

(** C10: whatever the target, the table and the matrix (a table without
    the [filename] column, a matrix with too few rows or more columns than
    the table has rows), the function returns a value to its caller; when
    its body raises, that value is [None]. *)
Theorem find_best_crossfade_from_match_total isalnum lower argsort
    (target_song_name : pyval) (df : dataframe)
    (similarity_matrix : list (list Q)) :
  (exists v,
     find_best_crossfade_from_match isalnum lower argsort
       target_song_name df similarity_matrix = Return v)
  /\ forall e,
       find_best_body isalnum lower argsort
         target_song_name df similarity_matrix = Raise e ->
       find_best_crossfade_from_match isalnum lower argsort
         target_song_name df similarity_matrix = Return None.
Proof.
  unfold find_best_crossfade_from_match.
  destruct (find_best_body isalnum lower argsort target_song_name df
              similarity_matrix) as [v|e] eqn:Hb.
  - split; [eauto | discriminate].
  - rewrite (find_best_body_raises _ _ _ _ _ _ _ Hb).
    split; [eauto | reflexivity].
Qed.

Example find_best_ex_missing_column :
  find_best_body ascii_isalnum ascii_lower argsort_stable
    (PyStr (str "a")) (DataFrame ∅) [[1]]%Q = Raise KeyError
  /\ find_best_crossfade_from_match ascii_isalnum ascii_lower argsort_stable
       (PyStr (str "a")) (DataFrame ∅) [[1]]%Q = Return None.
Proof. split; reflexivity. Qed.

Example find_best_ex_short_matrix :
  find_best_body ascii_isalnum ascii_lower argsort_stable
    (PyStr (str "b"))
    (DataFrame {[ "filename" := [PyStr (str "a"); PyStr (str "b")] ]})
    [[1; 2]]%Q = Raise IndexError
  /\ find_best_crossfade_from_match ascii_isalnum ascii_lower argsort_stable
       (PyStr (str "b"))
       (DataFrame {[ "filename" := [PyStr (str "a"); PyStr (str "b")] ]})
       [[1; 2]]%Q = Return None.
Proof. split; vm_compute; reflexivity. Qed.

Example find_best_ex_found :
  find_best_crossfade_from_match ascii_isalnum ascii_lower argsort_stable
    (PyStr (str "track a"))
    (DataFrame {[ "filename" := [PyStr (str "Track A.mp3");
                                 PyStr (str "Track B.mp3");
                                 PyStr (str "Track C.mp3")] ]})
    [[9#10; 2#10; 7#10]; [1#10; 8#10; 3#10]; [4#10; 6#10; 5#10]]%Q
  = Return (Some (PyStr (str "Track C.mp3"))).
Proof. vm_compute. reflexivity. Qed.

(** ** The function on a well-formed table *)




(** ** Similarity engine *)

Section SimilarityFacts.

Import PrimFloat Similarity.
Local Open Scope float_scope.

Lemma vstack_Some rows : stackable rows = true -> vstack rows = Some rows.
Proof. intros H. unfold vstack. rewrite H. reflexivity. Qed.

Lemma entry_map2 {A B : Type} (f : A -> B -> float) (X : list A)
    (Y : list B) i j x y :
  X !! i = Some x -> Y !! j = Some y ->
  entry (map (fun x => map (fun y => f x y) Y) X) i j = Some (f x y).
Proof.
  intros Hx Hy. unfold entry.
  change (map (fun x => map (fun y => f x y) Y) X)
    with ((fun x => map (fun y => f x y) Y) <$> X).
  rewrite list_lookup_fmap, Hx. simpl.
  change (map (fun y => f x y) Y) with ((fun y => f x y) <$> Y).
  rewrite list_lookup_fmap, Hy. reflexivity.
Qed.

Lemma entry_map (f : float -> float) (m : fmatrix) i j v :
  entry m i j = Some v -> entry (map (map f) m) i j = Some (f v).
Proof.
  unfold entry. intros H.
  change (map (map f) m) with (map f <$> m).
  rewrite list_lookup_fmap.
  destruct (m !! i) as [row|]; [|discriminate]. simpl in *.
  change (map f row) with (f <$> row).
  rewrite list_lookup_fmap, H. reflexivity.
Qed.

Lemma entry_add a b i j x y :
  entry a i j = Some x -> entry b i j = Some y ->
  entry (add a b) i j = Some (x + y).
Proof.
  unfold entry, add. intros Ha Hb. rewrite lookup_zip_with.
  destruct (a !! i) as [ra|]; [|discriminate].
  destruct (b !! i) as [rb|]; [|discriminate]. simpl in *.
  rewrite lookup_zip_with, Ha, Hb. reflexivity.
Qed.



(** *** Shapes *)

Lemma has_shape_map2 {A B : Type} (f : A -> B -> float) (X : list A)
    (Y : list B) :
  has_shape (map (fun x => map (fun y => f x y) Y) X) (length X) (length Y).
Proof.
  split.
  - apply length_map.
  - apply Forall_forall. intros r Hr.
    apply list_elem_of_In, in_map_iff in Hr as (x & <- & _).
    apply length_map.
Qed.

Lemma has_shape_map (f : float -> float) m rows cols :
  has_shape m rows cols -> has_shape (map (map f) m) rows cols.
Proof.
  intros [Hr Hc]. split.
  - rewrite length_map. exact Hr.
  - apply Forall_forall. intros r Hin.
    apply list_elem_of_In, in_map_iff in Hin as (r0 & <- & Hin).
    rewrite length_map.
    rewrite Forall_forall in Hc. apply Hc, list_elem_of_In, Hin.
Qed.

Lemma has_shape_add a b rows cols :
  has_shape a rows cols -> has_shape b rows cols ->
  has_shape (add a b) rows cols.
Proof.
  intros [Hra Hca] [Hrb Hcb]. unfold add. split.
  - rewrite length_zip_with. lia.
  - apply Forall_forall. intros r Hin.
    apply list_elem_of_lookup in Hin as (i & Hi).
    rewrite lookup_zip_with in Hi.
    destruct (a !! i) as [ra|] eqn:Ea; [|discriminate].
    destruct (b !! i) as [rb|] eqn:Eb; [|discriminate].
    simpl in Hi. injection Hi as <-.
    rewrite length_zip_with.
    rewrite Forall_forall in Hca, Hcb.
    rewrite (Hca ra), (Hcb rb); [lia| |];
      eapply list_elem_of_lookup_2; eassumption.
Qed.

(** *** NaN in a sum or a product *)



(** *** The order of float64 values that are not NaN *)









(** *** The largest tempo difference *)

Lemma maximum_cases a b : maximum a b = a \/ maximum a b = b.
Proof.
  unfold maximum.
  destruct (is_nan a); [left; reflexivity|].
  destruct (is_nan b); [right; reflexivity|].
  destruct (a <? b); [right|left]; reflexivity.
Qed.

Lemma fold_maximum_In xs : forall x, In (fold_left maximum xs x) (x :: xs).
Proof.
  induction xs as [|y ys IH]; intros x; simpl.
  - left. reflexivity.
  - destruct (IH (maximum x y)) as [H|H].
    + destruct (maximum_cases x y) as [E|E]; rewrite E in *; auto.
    + auto.
Qed.

Lemma amax_In (m : fmatrix) x :
  In x (concat m) -> exists mx, amax m = Some mx /\ In mx (concat m).
Proof.
  unfold amax. intros Hin.
  destruct (concat m) as [|y ys]; [destruct Hin|].
  eexists. split; [reflexivity|]. apply fold_maximum_In.
Qed.




Lemma tempo_matrix_In df v :
  In v (concat (tempo_matrix df))
  <-> exists a b, a ∈ df /\ b ∈ df
                  /\ v = abs (tempo_end a - tempo_start b).
Proof.
  unfold tempo_matrix. rewrite in_concat. split.
  - intros (row & Hrow & Hv).
    apply in_map_iff in Hrow as (a & <- & Ha).
    apply in_map_iff in Hv as (b & <- & Hb).
    exists a, b. repeat split; try apply list_elem_of_In; assumption.
  - intros (a & b & Ha & Hb & ->).
    exists (map (fun b => abs (tempo_end a - tempo_start b)) df). split.
    + apply in_map_iff. exists a. split; [reflexivity|].
      apply list_elem_of_In, Ha.
    + apply in_map_iff. exists b. split; [reflexivity|].
      apply list_elem_of_In, Hb.
Qed.

Lemma tempo_similarity_entries df :
  df <> [] ->
  exists mx T,
    amax (tempo_matrix df) = Some mx
    /\ tempo_similarity df = Some T
    /\ has_shape T (length df) (length df)
    /\ (exists a b, a ∈ df /\ b ∈ df
                    /\ mx = abs (tempo_end a - tempo_start b))
    /\ forall i j a b,
         df !! i = Some a -> df !! j = Some b ->
         entry T i j
         = Some (1 - abs (tempo_end a - tempo_start b) / (mx + EPSILON)).
Proof.
  intros Hne.
  destruct df as [|a0 df'] eqn:Edf; [congruence|]. rewrite <- Edf in *.
  assert (Ha0 : a0 ∈ df) by (rewrite Edf; left).
  assert (Hin : In (abs (tempo_end a0 - tempo_start a0))
                   (concat (tempo_matrix df))).
  { apply tempo_matrix_In. eauto. }
  destruct (amax_In _ _ Hin) as (mx & Hmx & Hatt).
  exists mx. eexists. unfold tempo_similarity. rewrite Hmx. simpl.
  split; [reflexivity|]. split; [reflexivity|]. split; [|split].
  - apply has_shape_map, (has_shape_map2 _ df df).
  - apply tempo_matrix_In, Hatt.
  - intros i j a b Ha Hb.
    apply (entry_map (fun d => 1 - d / (mx + EPSILON))).
    apply (entry_map2 (fun a b => abs (tempo_end a - tempo_start b))
             df df i j a b Ha Hb).
Qed.

(** *** The combined matrix *)

Section Build.

Variable fit_transform : fmatrix -> option fmatrix.
Variable cosine_similarity : fmatrix -> fmatrix -> option fmatrix.
Variable cosine : list float -> list float -> float.
Hypothesis fit_transform_rows : fit_transform_contract fit_transform.
Hypothesis cosine_similarity_entries :
  cosine_similarity_contract cosine_similarity cosine.

Lemma fit_transform_row (f : track -> list float) df X i a :
  fit_transform (map f df) = Some X ->
  df !! i = Some a -> exists r, X !! i = Some r.
Proof.
  intros HX Ha. apply lookup_lt_is_Some_2.
  rewrite (fit_transform_rows _ _ HX), length_map.
  eapply lookup_lt_Some, Ha.
Qed.

Lemma build_similarity_steps df Ss Se Cs Ce K1 K2 T :
  stackable (map mfcc_start df) = true ->
  stackable (map mfcc_end df) = true ->
  stackable (map chroma_start df) = true ->
  stackable (map chroma_end df) = true ->
  fit_transform (map mfcc_start df) = Some Ss ->
  fit_transform (map mfcc_end df) = Some Se ->
  fit_transform (map chroma_start df) = Some Cs ->
  fit_transform (map chroma_end df) = Some Ce ->
  cosine_similarity Se Ss = Some K1 ->
  cosine_similarity Ce Cs = Some K2 ->
  tempo_similarity df = Some T ->
  build_similarity fit_transform cosine_similarity df
  = Some (add (add (scale MFCC_WEIGHT K1) (scale CHROMA_WEIGHT K2))
              (scale TEMPO_WEIGHT T)).
Proof.
  intros H1 H2 H3 H4 F1 F2 F3 F4 C1 C2 HT. unfold build_similarity.
  rewrite !vstack_Some by assumption. simpl.
  rewrite F1. simpl. rewrite F2. simpl. rewrite F3. simpl.
  rewrite F4. simpl. rewrite C1. simpl. rewrite C2. simpl.
  rewrite HT. reflexivity.
Qed.

Lemma build_similarity_inv df M :
  build_similarity fit_transform cosine_similarity df = Some M ->
  exists Ss Se Cs Ce K1 K2 T,
    (stackable (map mfcc_start df) = true
     /\ stackable (map mfcc_end df) = true
     /\ stackable (map chroma_start df) = true
     /\ stackable (map chroma_end df) = true)
    /\ (fit_transform (map mfcc_start df) = Some Ss
        /\ fit_transform (map mfcc_end df) = Some Se
        /\ fit_transform (map chroma_start df) = Some Cs
        /\ fit_transform (map chroma_end df) = Some Ce)
    /\ (cosine_similarity Se Ss = Some K1
        /\ cosine_similarity Ce Cs = Some K2)
    /\ tempo_similarity df = Some T
    /\ M = add (add (scale MFCC_WEIGHT K1) (scale CHROMA_WEIGHT K2))
               (scale TEMPO_WEIGHT T).
Proof.
  unfold build_similarity, vstack. intros H.
  destruct (stackable (map mfcc_start df)); [|discriminate].
  destruct (stackable (map mfcc_end df)); [|discriminate].
  destruct (stackable (map chroma_start df)); [|discriminate].
  destruct (stackable (map chroma_end df)); [|discriminate].
  simpl in H.
  destruct (fit_transform (map mfcc_start df)) as [Ss|];
    simpl in H; [|discriminate].
  destruct (fit_transform (map mfcc_end df)) as [Se|];
    simpl in H; [|discriminate].
  destruct (fit_transform (map chroma_start df)) as [Cs|];
    simpl in H; [|discriminate].
  destruct (fit_transform (map chroma_end df)) as [Ce|];
    simpl in H; [|discriminate].
  destruct (cosine_similarity Se Ss) as [K1|] eqn:C1;
    simpl in H; [|discriminate].
  destruct (cosine_similarity Ce Cs) as [K2|] eqn:C2;
    simpl in H; [|discriminate].
  destruct (tempo_similarity df) as [T|]; simpl in H; [|discriminate].
  injection H as <-. exists Ss, Se, Cs, Ce, K1, K2, T. auto 10.
Qed.

Lemma build_similarity_entries df Ss Se Cs Ce K1 K2 :
  stackable (map mfcc_start df) = true ->
  stackable (map mfcc_end df) = true ->
  stackable (map chroma_start df) = true ->
  stackable (map chroma_end df) = true ->
  fit_transform (map mfcc_start df) = Some Ss ->
  fit_transform (map mfcc_end df) = Some Se ->
  fit_transform (map chroma_start df) = Some Cs ->
  fit_transform (map chroma_end df) = Some Ce ->
  cosine_similarity Se Ss = Some K1 ->
  cosine_similarity Ce Cs = Some K2 ->
  exists M mx,
    build_similarity fit_transform cosine_similarity df = Some M
    /\ amax (tempo_matrix df) = Some mx
    /\ has_shape M (length df) (length df)
    /\ forall i j a b,
         df !! i = Some a -> df !! j = Some b ->
         exists es ss ec sc,
           Se !! i = Some es /\ Ss !! j = Some ss
           /\ Ce !! i = Some ec /\ Cs !! j = Some sc
           /\ entry M i j
              = Some (0.4 * cosine es ss + 0.2 * cosine ec sc
                      + 0.4 * (1 - abs (tempo_end a - tempo_start b)
                                   / (mx + 1e-8))).
Proof.
  intros H1 H2 H3 H4 F1 F2 F3 F4 C1 C2.
  assert (Hne : df <> []) by (intros ->; discriminate).
  destruct (tempo_similarity_entries df Hne)
    as (mx & T & Hmx & HT & HTshape & _ & HTentry).
  destruct (cosine_similarity_entries _ _ _ C1) as [S1 E1].
  destruct (cosine_similarity_entries _ _ _ C2) as [S2 E2].
  rewrite (fit_transform_rows _ _ F1), (fit_transform_rows _ _ F2),
    !length_map in S1.
  rewrite (fit_transform_rows _ _ F3), (fit_transform_rows _ _ F4),
    !length_map in S2.
  eexists _, mx.
  split; [apply (build_similarity_steps df Ss Se Cs Ce K1 K2 T);
          assumption|].
  split; [exact Hmx|]. split.
  - repeat apply has_shape_add; apply has_shape_map; assumption.
  - intros i j a b Ha Hb.
    destruct (fit_transform_row mfcc_end df Se i a F2 Ha) as [es Hes].
    destruct (fit_transform_row mfcc_start df Ss j b F1 Hb) as [ss Hss].
    destruct (fit_transform_row chroma_end df Ce i a F4 Ha) as [ec Hec].
    destruct (fit_transform_row chroma_start df Cs j b F3 Hb) as [sc Hsc].
    exists es, ss, ec, sc. repeat (split; [assumption|]).
    apply entry_add; [apply entry_add|].
    + apply (entry_map (fun v => MFCC_WEIGHT * v)), E1; assumption.
    + apply (entry_map (fun v => CHROMA_WEIGHT * v)), E2; assumption.
    + apply (entry_map (fun v => TEMPO_WEIGHT * v)), HTentry; assumption.
Qed.

End Build.

(** *** The plain library functions keep the contracts *)

Lemma plain_fit_transform_contract :
  fit_transform_contract plain_fit_transform.
Proof.
  intros X X' [= <-]. unfold plain_standardize. apply length_imap.
Qed.

Lemma plain_cosine_similarity_contract :
  cosine_similarity_contract plain_cosine_similarity plain_cosine.
Proof.
  intros X Y K H.
  assert (HK : K = plain_cosine_table X Y).
  { unfold plain_cosine_similarity in H.
    destruct X as [|x0 X']; [discriminate|].
    destruct Y as [|y0 Y']; [discriminate|].
    destruct (length x0 =? length y0)%nat; [|discriminate].
    injection H as <-. reflexivity. }
  subst K. split.
  - apply (has_shape_map2 plain_cosine).
  - intros i j x y Hx Hy. apply (entry_map2 plain_cosine); assumption.
Qed.

End SimilarityFacts.

Section SimilarityClaims.

Import PrimFloat Similarity.
Local Open Scope float_scope.

(** ** C2 *)

(** C2: on a table that [np.vstack] accepts, when the four calls of the
    scaler and the two calls of [cosine_similarity] return, the second
    [try] block of [main] returns a matrix whose entry [(i, j)] is, in
    float64 arithmetic, 0.4 times the cosine of track [i]'s scaled ending
    timbre row and track [j]'s scaled starting timbre row, plus 0.2 times
    the cosine of track [i]'s scaled ending pitch-class row and track
    [j]'s scaled starting pitch-class row, plus 0.4 times the tempo score
    of track [i]'s end against track [j]'s start; the three weights add up
    to exactly 1.0. *)
Theorem similarity_matrix_entry
    (fit_transform : fmatrix -> option fmatrix)
    (cosine_similarity : fmatrix -> fmatrix -> option fmatrix)
    (cosine : list float -> list float -> float)
    (df_final : list track) (Ss Se Cs Ce K1 K2 : fmatrix) :
  fit_transform_contract fit_transform ->
  cosine_similarity_contract cosine_similarity cosine ->
  stackable (map mfcc_start df_final) = true ->
  stackable (map mfcc_end df_final) = true ->
  stackable (map chroma_start df_final) = true ->
  stackable (map chroma_end df_final) = true ->
  fit_transform (map mfcc_start df_final) = Some Ss ->
  fit_transform (map mfcc_end df_final) = Some Se ->
  fit_transform (map chroma_start df_final) = Some Cs ->
  fit_transform (map chroma_end df_final) = Some Ce ->
  cosine_similarity Se Ss = Some K1 ->
  cosine_similarity Ce Cs = Some K2 ->
  MFCC_WEIGHT + CHROMA_WEIGHT + TEMPO_WEIGHT = 1
  /\ exists M mx,
       build_similarity fit_transform cosine_similarity df_final = Some M
       /\ amax (tempo_matrix df_final) = Some mx
       /\ forall i j a b,
            df_final !! i = Some a -> df_final !! j = Some b ->
            exists es ss ec sc,
              Se !! i = Some es /\ Ss !! j = Some ss
              /\ Ce !! i = Some ec /\ Cs !! j = Some sc
              /\ entry M i j
                 = Some (0.4 * cosine es ss + 0.2 * cosine ec sc
                         + 0.4 * (1 - abs (tempo_end a - tempo_start b)
                                      / (mx + 1e-8))).
Proof.
  intros Hfit Hcs H1 H2 H3 H4 F1 F2 F3 F4 C1 C2. split.
  - reflexivity.
  - destruct (build_similarity_entries fit_transform cosine_similarity
                cosine Hfit Hcs df_final Ss Se Cs Ce K1 K2
                H1 H2 H3 H4 F1 F2 F3 F4 C1 C2)
      as (M & mx & HM & Hmx & _ & Hentry).
    exists M, mx. auto.
Qed.

Lemma similarity_matrix_entry_witness :
  MFCC_WEIGHT + CHROMA_WEIGHT + TEMPO_WEIGHT = 1
  /\ exists M mx,
       build_similarity plain_fit_transform plain_cosine_similarity
         example_tracks = Some M
       /\ amax (tempo_matrix example_tracks) = Some mx
       /\ forall i j a b,
            example_tracks !! i = Some a -> example_tracks !! j = Some b ->
            exists es ss ec sc,
              plain_standardize (map mfcc_end example_tracks) !! i = Some es
              /\ plain_standardize (map mfcc_start example_tracks) !! j
                 = Some ss
              /\ plain_standardize (map chroma_end example_tracks) !! i
                 = Some ec
              /\ plain_standardize (map chroma_start example_tracks) !! j
                 = Some sc
              /\ entry M i j
                 = Some (0.4 * plain_cosine es ss + 0.2 * plain_cosine ec sc
                         + 0.4 * (1 - abs (tempo_end a - tempo_start b)
                                      / (mx + 1e-8))).
Proof.
  apply (similarity_matrix_entry plain_fit_transform plain_cosine_similarity
           plain_cosine example_tracks
           (plain_standardize (map mfcc_start example_tracks))
           (plain_standardize (map mfcc_end example_tracks))
           (plain_standardize (map chroma_start example_tracks))
           (plain_standardize (map chroma_end example_tracks))
           (plain_cosine_table
              (plain_standardize (map mfcc_end example_tracks))
              (plain_standardize (map mfcc_start example_tracks)))
           (plain_cosine_table
              (plain_standardize (map chroma_end example_tracks))
              (plain_standardize (map chroma_start example_tracks)))
           plain_fit_transform_contract plain_cosine_similarity_contract);
    reflexivity.
Defined.

(** ** C6 *)




End SimilarityClaims.

(** *** The spec-modelled scaler and cosine *)

Section ScalerFacts.

Import Engine.
Local Open Scope R_scope.

Lemma sum_map_div (f : R -> R) s l :
  sum (map (fun x => f x / s) l) = sum (map f l) / s.
Proof.
  induction l as [|x l IH]; simpl; [lra|]. rewrite IH. lra.
Qed.

Lemma sum_map_minus c l :
  sum (map (fun x => x - c) l) = sum l - INR (length l) * c.
Proof.
  induction l as [|x l IH]; [simpl; lra|].
  change (length (x :: l)) with (S (length l)). rewrite S_INR.
  simpl. rewrite IH. lra.
Qed.

Lemma sum_nonneg l : Forall (fun x => 0 <= x) l -> 0 <= sum l.
Proof.
  induction 1 as [|x l Hx Hl IH]; simpl; [lra|]. lra.
Qed.

Lemma sum_zero_all l :
  Forall (fun x => 0 <= x) l -> sum l = 0 -> Forall (fun x => x = 0) l.
Proof.
  induction 1 as [|x l Hx Hl IH]; simpl; intros Hs; [constructor|].
  pose proof (sum_nonneg l Hl). constructor; [lra|]. apply IH. lra.
Qed.

Lemma INR_length_pos {A : Type} (l : list A) : l <> [] -> 0 < INR (length l).
Proof.
  destruct l as [|x l]; [congruence|]. intros _. apply lt_0_INR. simpl. lia.
Qed.

Lemma squares_nonneg (c : R) l :
  Forall (fun x => 0 <= x) (map (fun x => (x - c) * (x - c)) l).
Proof.
  induction l as [|x l IH]; simpl; [constructor|].
  constructor; [apply (Rle_0_sqr (x - c)) | exact IH].
Qed.

Lemma variance_nonneg l : 0 <= variance l.
Proof.
  unfold variance, mean at 1. rewrite length_map.
  destruct l as [|x l]; [simpl; lra|].
  apply Rmult_le_pos; [apply sum_nonneg, squares_nonneg|].
  apply Rlt_le, Rinv_0_lt_compat, INR_length_pos. discriminate.
Qed.

Lemma variance_nonzero_nonempty l : variance l <> 0 -> l <> [].
Proof. intros H ->. apply H. unfold variance, mean. simpl. lra. Qed.

Lemma std_sqr l : std l * std l = variance l.
Proof. apply sqrt_sqrt, variance_nonneg. Qed.

Lemma std_nonzero l : variance l <> 0 -> std l <> 0.
Proof.
  intros H Hs. apply H. apply sqrt_eq_0; [apply variance_nonneg | exact Hs].
Qed.

Lemma mean_standardized l s :
  l <> [] -> mean (map (fun x => (x - mean l) / s) l) = 0.
Proof.
  intros Hl. pose proof (INR_length_pos l Hl) as HN.
  unfold mean at 1. rewrite length_map.
  rewrite (sum_map_div (fun x => x - mean l)), sum_map_minus.
  replace (sum l - INR (length l) * mean l) with 0
    by (unfold mean; field; lra).
  unfold Rdiv. rewrite !Rmult_0_l. reflexivity.
Qed.

Lemma variance_standardized l :
  variance l <> 0 ->
  variance (map (fun x => (x - mean l) / std l) l) = 1.
Proof.
  intros Hv. pose proof (variance_nonzero_nonempty l Hv) as Hl.
  pose proof (INR_length_pos l Hl) as HN.
  pose proof (std_nonzero l Hv) as Hs.
  unfold variance at 1. rewrite (mean_standardized l (std l) Hl).
  rewrite map_map. unfold mean at 1. rewrite length_map.
  erewrite map_ext.
  2:{ intros x.
      replace (((x - mean l) / std l - 0) * ((x - mean l) / std l - 0))
        with ((x - mean l) * (x - mean l) / (std l * std l))
        by (field; exact Hs).
      reflexivity. }
  rewrite (sum_map_div (fun x => (x - mean l) * (x - mean l))).
  rewrite std_sqr.
  assert (Hvar : variance l
                 = sum (map (fun x => (x - mean l) * (x - mean l)) l)
                   / INR (length l)).
  { unfold variance, mean at 1. rewrite length_map. reflexivity. }
  rewrite Hvar in *.
  set (S := sum (map (fun x => (x - mean l) * (x - mean l)) l)) in *.
  assert (HS : S <> 0).
  { intros H0. apply Hv. rewrite H0. unfold Rdiv. apply Rmult_0_l. }
  field. split; lra.
Qed.

Lemma variance_zero_constant l :
  variance l = 0 -> Forall (fun x => x = mean l) l.
Proof.
  intros Hv. destruct l as [|x0 l0] eqn:Hl; [constructor|].
  rewrite <- Hl in *. assert (Hne : l <> []) by (rewrite Hl; discriminate).
  pose proof (INR_length_pos l Hne) as HN.
  unfold variance, mean at 1 in Hv. rewrite length_map in Hv.
  assert (Hs : sum (map (fun x => (x - mean l) * (x - mean l)) l) = 0).
  { apply (Rmult_eq_reg_r (/ INR (length l))).
    - rewrite Rmult_0_l. exact Hv.
    - apply Rinv_neq_0_compat. lra. }
  pose proof (sum_zero_all _ (squares_nonneg (mean l) l) Hs) as Hz.
  rewrite Forall_map in Hz. eapply Forall_impl; [exact Hz|].
  intros x Hx. simpl in Hx. nra.
Qed.

Lemma standardize_column_length col :
  length (standardize_column col) = length col.
Proof.
  unfold standardize_column.
  destruct (Req_dec_T (variance col) 0); apply length_map.
Qed.

Lemma standardize_length m : length (standardize m) = length m.
Proof. apply length_imap. Qed.

Lemma standardize_columns m j :
  (forall row, row ∈ m -> (j < length row)%nat) ->
  column j (standardize m) = standardize_column (column j m).
Proof.
  intros Hj. apply list_eq. intros i. unfold column at 1, standardize.
  change (map (fun row => nth j row 0) ?l)
    with ((fun row => nth j row 0) <$> l).
  rewrite list_lookup_fmap, list_lookup_imap.
  destruct (m !! i) as [row|] eqn:Hrow; simpl.
  - assert (Hlt : (j < length row)%nat).
    { apply Hj, list_elem_of_lookup. eauto. }
    destruct (lookup_lt_is_Some_2 row j Hlt) as [x Hx].
    rewrite nth_lookup, list_lookup_imap, Hx. simpl.
    rewrite nth_lookup.
    assert (Hi : (i < length (standardize_column (column j m)))%nat).
    { rewrite standardize_column_length. unfold column. rewrite length_map.
      eapply lookup_lt_Some, Hrow. }
    destruct (lookup_lt_is_Some_2 _ _ Hi) as [y Hy]. rewrite Hy. reflexivity.
  - symmetry. apply lookup_ge_None.
    rewrite standardize_column_length. unfold column. rewrite length_map.
    apply lookup_ge_None. exact Hrow.
Qed.

Lemma zip_with_self (a : list R) :
  zip_with Rmult a a = map (fun x => x * x) a.
Proof. induction a as [|x a IH]; simpl; [reflexivity|]. rewrite IH. reflexivity. Qed.

Lemma dot_self_nonneg a : 0 <= dot a a.
Proof.
  unfold dot. rewrite zip_with_self. apply sum_nonneg.
  induction a as [|x a IH]; simpl; [constructor|].
  constructor; [apply (Rle_0_sqr x) | exact IH].
Qed.

Lemma norm_sqr a : norm a * norm a = dot a a.
Proof. apply sqrt_sqrt, dot_self_nonneg. Qed.

Lemma cosine_nonzero a b :
  norm a <> 0 -> norm b <> 0 ->
  Engine.cosine a b = dot a b / (norm a * norm b).
Proof.
  intros Ha Hb. unfold Engine.cosine.
  destruct (Req_dec_T (norm a) 0); [contradiction|].
  destruct (Req_dec_T (norm b) 0); [contradiction|]. reflexivity.
Qed.

Lemma cosine_zero_norm a b :
  norm a = 0 \/ norm b = 0 -> Engine.cosine a b = 0.
Proof.
  intros H. unfold Engine.cosine.
  destruct (Req_dec_T (norm a) 0); [reflexivity|].
  destruct (Req_dec_T (norm b) 0); [reflexivity|]. tauto.
Qed.

Lemma cosine_self a : norm a <> 0 -> Engine.cosine a a = 1.
Proof.
  intros Ha. rewrite (cosine_nonzero a a Ha Ha), norm_sqr. field.
  intros H0. apply Ha. unfold norm. rewrite H0. apply sqrt_0.
Qed.

Lemma cosine_orthogonal a b : dot a b = 0 -> Engine.cosine a b = 0.
Proof.
  intros H0. unfold Engine.cosine.
  destruct (Req_dec_T (norm a) 0); [reflexivity|].
  destruct (Req_dec_T (norm b) 0); [reflexivity|].
  rewrite H0. unfold Rdiv. apply Rmult_0_l.
Qed.

End ScalerFacts.

Section EngineClaims.

Import Engine.
Local Open Scope R_scope.

(** ** C5 *)

(** C5: standardization acts on each column by itself; the variance it
    uses divides by the number of rows; a column of nonzero variance is
    sent to [(x - mean) / std] and then has mean 0 and standard deviation
    1; a column of zero variance, whose values all equal its mean, is sent
    to all zeros. *)
Theorem standardize_spec (m : matrix) (j : nat) :
  (forall row, row ∈ m -> (j < length row)%nat) ->
  let col := column j m in
  let out := column j (standardize m) in
  out = standardize_column col
  /\ variance col
     = sum (map (fun x => (x - mean col) * (x - mean col)) col)
       / INR (length col)
  /\ std col = sqrt (variance col)
  /\ (variance col <> 0 ->
        out = map (fun x => (x - mean col) / std col) col
        /\ mean out = 0 /\ std out = 1)
  /\ (variance col = 0 ->
        out = map (fun _ => 0) col
        /\ Forall (fun x => x = mean col) col).
Proof.
  intros Hj. cbv zeta. rewrite (standardize_columns m j Hj).
  set (col := column j m).
  split; [reflexivity|]. split.
  { unfold variance, mean at 1. rewrite length_map. reflexivity. }
  split; [reflexivity|].
  unfold standardize_column. destruct (Req_dec_T (variance col) 0) as [Hz|Hnz].
  - split; [intros H; contradiction|]. intros _.
    split; [reflexivity | apply variance_zero_constant, Hz].
  - split; [|intros H; contradiction]. intros _.
    split; [reflexivity|]. split.
    + apply mean_standardized, variance_nonzero_nonempty, Hnz.
    + unfold std at 1. rewrite (variance_standardized col Hnz). apply sqrt_1.
Qed.

Lemma standardize_spec_witness :
  let col := column 0 [[1; 5]; [3; 5]] in
  let out := column 0 (standardize [[1; 5]; [3; 5]]) in
  out = standardize_column col
  /\ variance col
     = sum (map (fun x => (x - mean col) * (x - mean col)) col)
       / INR (length col)
  /\ std col = sqrt (variance col)
  /\ (variance col <> 0 ->
        out = map (fun x => (x - mean col) / std col) col
        /\ mean out = 0 /\ std out = 1)
  /\ (variance col = 0 ->
        out = map (fun _ => 0) col
        /\ Forall (fun x => x = mean col) col).
Proof.
  apply (standardize_spec [[1; 5]; [3; 5]] 0).
  intros row Hrow. rewrite !elem_of_cons in Hrow.
  destruct Hrow as [->|[->|Hrow]]; [simpl; lia | simpl; lia|].
  apply elem_of_nil in Hrow. destruct Hrow.
Defined.

(** The first column of the example has mean 2 and variance 1, the second
    is constant. *)
Example standardize_ex_columns :
  variance (column 0 [[1; 5]; [3; 5]]) = 1
  /\ variance (column 1 [[1; 5]; [3; 5]]) = 0.
Proof. unfold variance, mean, column. simpl. split; field. Qed.

(** ** C7 *)

(** C7: the norm is the L2 norm; for two vectors of nonzero norm the
    cosine is the dot product over the product of the norms; it is 0 as
    soon as one norm is 0; a vector of nonzero norm has cosine 1 with
    itself; two vectors whose dot product is 0 have cosine 0. *)
Theorem cosine_spec (a b : list R) :
  norm a = sqrt (sum (map (fun x => x * x) a))
  /\ (norm a <> 0 -> norm b <> 0 ->
        Engine.cosine a b = dot a b / (norm a * norm b))
  /\ (norm a = 0 \/ norm b = 0 -> Engine.cosine a b = 0)
  /\ (norm a <> 0 -> Engine.cosine a a = 1)
  /\ (dot a b = 0 -> Engine.cosine a b = 0).
Proof.
  split; [unfold norm, dot; rewrite zip_with_self; reflexivity|].
  split; [apply cosine_nonzero|]. split; [apply cosine_zero_norm|].
  split; [apply cosine_self | apply cosine_orthogonal].
Qed.

Example cosine_ex_orthogonal : Engine.cosine [1; 0] [0; 1] = 0.
Proof.
  apply cosine_orthogonal. unfold dot. simpl. lra.
Qed.

Example cosine_ex_zero_vector : Engine.cosine [0; 0] [3; 4] = 0.
Proof.
  apply cosine_zero_norm. left.
  unfold norm, dot. simpl.
  replace (0 * 0 + (0 * 0 + 0)) with 0 by lra. apply sqrt_0.
Qed.

End EngineClaims.

(** * Further properties *)

(** ** What a normalized name looks like *)

Lemma collapse_space_is_SPACE b s c :
  c ∈ collapse_spaces b s -> isspace c = true -> c = SPACE.
Proof.
  revert b. induction s as [|x s IH]; intros b; simpl.
  - intros H. apply elem_of_nil in H. destruct H.
  - destruct (isspace x) eqn:Hx.
    + destruct b; [apply IH|].
      intros H Hc. apply elem_of_cons in H as [->|H]; [reflexivity|].
      exact (IH true H Hc).
    + intros H Hc. apply elem_of_cons in H as [->|H]; [congruence|].
      exact (IH false H Hc).
Qed.

Lemma collapse_true_head s c r :
  collapse_spaces true s = c :: r -> isspace c = false.
Proof.
  induction s as [|x s IH]; simpl; [discriminate|].
  destruct (isspace x) eqn:Hx; [exact IH|]. intros [= <- _]. exact Hx.
Qed.

Lemma collapse_adjacent b s i a c :
  collapse_spaces b s !! i = Some a ->
  collapse_spaces b s !! S i = Some c ->
  isspace a = true -> isspace c = false.
Proof.
  revert b i. induction s as [|x s IH]; intros b i; simpl; [discriminate|].
  destruct (isspace x) eqn:Hx.
  - destruct b; [apply IH|]. destruct i as [|i]; [|apply IH].
    simpl. intros _ Hc _.
    destruct (collapse_spaces true s) as [|d r] eqn:Hd; [discriminate|].
    injection Hc as <-. exact (collapse_true_head s d r Hd).
  - destruct i as [|i]; [|apply IH].
    simpl. intros [= <-] _ Ha. congruence.
Qed.

Lemma rstrip_nil_all_space s : rstrip s = [] -> forallb isspace s = true.
Proof.
  destruct s as [|c s]; [reflexivity|]. cbn [rstrip].
  destruct (forallb isspace (c :: s)); [reflexivity | discriminate].
Qed.

Lemma rstrip_last s r c : rstrip s = r ++ [c] -> isspace c = false.
Proof.
  revert r. induction s as [|x s IH]; intros r.
  - simpl. intros H. symmetry in H. apply app_eq_nil in H as [_ H].
    discriminate.
  - cbn [rstrip]. destruct (forallb isspace (x :: s)) eqn:Hall.
    + intros H. symmetry in H. apply app_eq_nil in H as [_ H]. discriminate.
    + destruct r as [|y r]; simpl.
      * intros [= <- Hnil]. apply rstrip_nil_all_space in Hnil.
        cbn [forallb] in Hall. rewrite Hnil, andb_true_r in Hall. exact Hall.
      * intros [= _ Hs]. exact (IH r Hs).
Qed.

Lemma strip_head s c r : strip s = c :: r -> isspace c = false.
Proof.
  unfold strip. destruct (lstrip_head s) as [->|(d & u & -> & Hd)].
  - discriminate.
  - cbn [rstrip forallb]. rewrite Hd. simpl. intros [= <- _]. exact Hd.
Qed.

(** X1: whatever the Unicode tables, a normalized name has canonical
    whitespace: the only whitespace character in it is the space, it
    neither starts nor ends with one, and no two follow each other. *)
Theorem normalize_whitespace_canonical isalnum lower (name : pyval) :
  let out := normalize_song_name isalnum lower name in
  (forall c, c ∈ out -> isspace c = true -> c = SPACE)
  /\ (forall c r, out = c :: r -> isspace c = false)
  /\ (forall r c, out = r ++ [c] -> isspace c = false)
  /\ (forall i a c, out !! i = Some a -> out !! S i = Some c ->
        isspace a = true -> isspace c = false).
Proof.
  cbv zeta. destruct name as [s| |]; simpl.
  2,3: repeat split;
       [ intros c H; apply elem_of_nil in H; destruct H
       | discriminate
       | intros r c H; symmetry in H; apply app_eq_nil in H as [_ H];
         discriminate
       | discriminate ].
  rewrite sub_spaces.
  set (t := lower (Re.sub (special_re isalnum) []
                     (Re.sub bracket_re [] s))).
  repeat split.
  - apply collapse_space_is_SPACE.
  - intros c r. destruct (strip t) as [|d u] eqn:Hst; [discriminate|].
    pose proof (strip_head t d u Hst) as Hd.
    rewrite collapse_nonspace_flag by exact Hd. intros [= <- _]. exact Hd.
  - intros r c. rewrite collapse_strip. unfold strip. apply rstrip_last.
  - apply collapse_adjacent.
Qed.

(** ** ASCII names *)

Lemma normal_char_ranges c :
  normal_char c ->
  c = SPACE \/ c = UNDERSCORE
  \/ (0x30 <= c <= 0x39) \/ (0x61 <= c <= 0x7A).
Proof.
  intros [->|(Ha & _ & Hw & Hl)]; [left; reflexivity|]. right.
  apply N.eqb_eq in Hl.
  assert (H : (c =? UNDERSCORE)
              || ((0x30 <=? c) && (c <=? 0x39))
              || ((0x61 <=? c) && (c <=? 0x7A)) = true).
  { revert Hw Hl. rewrite <- Bool.implb_true_iff.
    intros Hw. revert Hw. rewrite <- Bool.implb_true_iff.
    exact (ascii_check
             (fun c => implb (isword ascii_isalnum c)
                         (implb (ascii_lower_char c =? c)
                            ((c =? UNDERSCORE)
                             || ((0x30 <=? c) && (c <=? 0x39))
                             || ((0x61 <=? c) && (c <=? 0x7A))))) c
             ltac:(vm_compute; reflexivity) Ha). }
  rewrite !orb_true_iff, !andb_true_iff, N.eqb_eq, !N.leb_le in H. tauto.
Qed.

(** X2: with Unicode tables that are the usual ones on ASCII, the
    normalized form of an ASCII string (or of a value that is not a
    string) consists of lower-case letters, digits, underscores and
    single spaces only: no brackets, no punctuation, no capitals. *)
Theorem normalize_ascii_alphabet isalnum lower (name : pyval) :
  (forall c, is_ascii c = true -> isalnum c = ascii_isalnum c) ->
  (forall s, all_ascii s -> lower s = ascii_lower s) ->
  ascii_input name ->
  Forall (fun c => c = SPACE \/ c = UNDERSCORE
                   \/ (0x30 <= c <= 0x39) \/ (0x61 <= c <= 0x7A))
         (normalize_song_name isalnum lower name).
Proof.
  intros Ha Hl Hin.
  rewrite (normalize_ascii_tables isalnum lower Ha Hl name Hin).
  destruct name as [s| |]; try constructor.
  rewrite normalize_pipeline.
  eapply Forall_impl; [apply normalize_ascii_normal, Hin|].
  apply normal_char_ranges.
Qed.

Lemma normalize_ascii_alphabet_witness :
  Forall (fun c => c = SPACE \/ c = UNDERSCORE
                   \/ (0x30 <= c <= 0x39) \/ (0x61 <= c <= 0x7A))
         (normalize_song_name ascii_isalnum ascii_lower
            (PyStr (str "Song_2 (Live) [HQ].MP3"))).
Proof.
  apply (normalize_ascii_alphabet ascii_isalnum ascii_lower
           (PyStr (str "Song_2 (Live) [HQ].MP3"))
           (fun c _ => eq_refl) (fun s _ => eq_refl)).
  simpl. unfold all_ascii. repeat (constructor; [reflexivity|]). constructor.
Defined.

Lemma lstrip_all_space s : forallb isspace s = true -> lstrip s = [].
Proof.
  induction s as [|c s IH]; [reflexivity|]. simpl.
  destruct (isspace c); [exact IH | discriminate].
Qed.

(** X3: an ASCII string without a letter, a digit or an underscore
    (punctuation, brackets and whitespace only) normalizes to the empty
    string. *)
Theorem normalize_no_word_char_empty isalnum lower (s : pystr) :
  (forall c, is_ascii c = true -> isalnum c = ascii_isalnum c) ->
  (forall s, all_ascii s -> lower s = ascii_lower s) ->
  Forall (fun c => is_ascii c = true /\ isword ascii_isalnum c = false) s ->
  normalize_song_name isalnum lower (PyStr s) = [].
Proof.
  intros Ha Hl Hs.
  assert (Hascii : all_ascii s).
  { eapply Forall_impl; [exact Hs|]. intros c [H _]. exact H. }
  rewrite (normalize_ascii_tables isalnum lower Ha Hl (PyStr s) Hascii).
  rewrite normalize_pipeline. unfold normalize_steps, keep_word_or_space.
  set (kept := List.filter _ _).
  assert (Hk : Forall (fun c => isspace c = true) kept).
  { subst kept. eapply Forall_impl;
      [apply filter_Forall, remove_bracketed_Forall, Hs|].
    intros c [[_ Hw] Hkeep]. simpl in Hkeep. rewrite Hw in Hkeep.
    exact Hkeep. }
  assert (Hall : forallb isspace (ascii_lower kept) = true).
  { unfold ascii_lower. apply forallb_forall. intros d Hd.
    apply in_map_iff in Hd as (c & <- & Hc). rewrite isspace_lower.
    rewrite Forall_forall in Hk. apply Hk, list_elem_of_In, Hc. }
  unfold strip. rewrite lstrip_all_space; [reflexivity|].
  rewrite forallb_collapse. exact Hall.
Qed.

Lemma normalize_no_word_char_empty_witness :
  normalize_song_name ascii_isalnum ascii_lower (PyStr (str "?! (...) -"))
  = [].
Proof.
  apply (normalize_no_word_char_empty ascii_isalnum ascii_lower
           (str "?! (...) -") (fun c _ => eq_refl) (fun s _ => eq_refl)).
  repeat (constructor; [split; reflexivity|]). constructor.
Defined.

(** ** More on the name resolver *)

Lemma Zpos_of_nat_max n : Z.pos (Pos.of_nat (Nat.max n 1)) = Z.of_nat (Nat.max n 1).
Proof. rewrite <- positive_nat_Z, Nat2Pos.id by lia. reflexivity. Qed.

(** X4: the score of a candidate always lies between 0 and 1. *)
Theorem match_score_bounds (normalized_target csv_song_normalized : pystr) :
  (0 <= match_score normalized_target csv_song_normalized <= 1)%Q.
Proof.
  unfold match_score.
  destruct (contains normalized_target csv_song_normalized
            || contains csv_song_normalized normalized_target).
  - split; [discriminate | apply Qle_refl].
  - pose proof (subseteq_size
                  (word_set normalized_target ∩ word_set csv_song_normalized)
                  (word_set normalized_target)
                  ltac:(apply intersection_subseteq_l)) as Hsz.
    unfold Qle. cbn [Qnum Qden]. rewrite Zpos_of_nat_max. split; lia.
Qed.

Lemma match_score_le_1 a b : (match_score a b <= 1)%Q.
Proof.
  unfold match_score. destruct (contains a b || contains b a).
  - apply Qle_refl.
  - pose proof (subseteq_size (word_set a ∩ word_set b) (word_set a)
                  ltac:(apply intersection_subseteq_l)) as Hsz.
    unfold Qle. cbn [Qnum Qden]. rewrite Zpos_of_nat_max. lia.
Qed.

Lemma resolve_Some_intro isalnum lower q names i n :
  names !! i = Some n ->
  (THRESHOLD <= match_score (normalize_song_name isalnum lower q)
                  (normalize_song_name isalnum lower n))%Q ->
  (forall j m, names !! j = Some m ->
     (match_score (normalize_song_name isalnum lower q)
        (normalize_song_name isalnum lower m)
      <= match_score (normalize_song_name isalnum lower q)
           (normalize_song_name isalnum lower n))%Q) ->
  (forall j m, (j < i)%nat -> names !! j = Some m ->
     (match_score (normalize_song_name isalnum lower q)
        (normalize_song_name isalnum lower m)
      < match_score (normalize_song_name isalnum lower q)
          (normalize_song_name isalnum lower n))%Q) ->
  resolve isalnum lower q names = Some i.
Proof.
  intros Hn Hth Hmax Hfirst.
  destruct (resolve_cases isalnum lower q names)
    as [[_ Hall]|(i' & n' & Hr & Hn' & Hth' & Hmax' & Hfirst')].
  - exfalso. apply (Qlt_not_le _ _ (Hall i n Hn)), Hth.
  - rewrite Hr. f_equal.
    destruct (Nat.lt_trichotomy i' i) as [Hlt|[Heq|Hgt]]; [|exact Heq|].
    + exfalso. apply (Qlt_not_le _ _ (Hfirst i' n' Hlt Hn')).
      apply (Hmax' i n Hn).
    + exfalso. apply (Qlt_not_le _ _ (Hfirst' i n Hgt Hn)).
      apply (Hmax i' n' Hn').
Qed.

(** A candidate with score 1 makes the resolver return the first
    candidate with score 1. *)
Lemma resolve_score_one isalnum lower q names i n :
  names !! i = Some n ->
  (match_score (normalize_song_name isalnum lower q)
     (normalize_song_name isalnum lower n) == 1)%Q ->
  exists j m,
    resolve isalnum lower q names = Some j
    /\ (j <= i)%nat
    /\ names !! j = Some m
    /\ (match_score (normalize_song_name isalnum lower q)
          (normalize_song_name isalnum lower m) == 1)%Q
    /\ forall k m', (k < j)%nat -> names !! k = Some m' ->
         (match_score (normalize_song_name isalnum lower q)
            (normalize_song_name isalnum lower m') < 1)%Q.
Proof.
  intros Hn Hone.
  destruct (resolve_cases isalnum lower q names)
    as [[_ Hall]|(j & m & Hr & Hm & Hth & Hmax & Hfirst)].
  - exfalso. specialize (Hall i n Hn). rewrite Hone in Hall.
    revert Hall. apply Qle_not_lt. discriminate.
  - assert (Hm1 : (match_score (normalize_song_name isalnum lower q)
                     (normalize_song_name isalnum lower m) == 1)%Q).
    { apply Qle_antisym; [apply match_score_le_1|].
      rewrite <- Hone. apply (Hmax i n Hn). }
    exists j, m. repeat split; auto.
    + destruct (decide (j <= i)%nat) as [H|H]; [exact H|]. exfalso.
      assert (Hlt : (i < j)%nat) by lia.
      specialize (Hfirst i n Hlt Hn). rewrite Hone, Hm1 in Hfirst.
      revert Hfirst. apply Qlt_irrefl.
    + intros k m' Hk Hm'. rewrite <- Hm1. apply (Hfirst k m' Hk Hm').
Qed.

(** X5: when the normalized query occurs in the normalized form of some
    candidate [i], or the other way round (in particular when the two are
    equal), the query resolves, to the first row that scores 1; that row
    is [i] or an earlier one. *)
Theorem resolve_substring_hit isalnum lower (q : pyval) (names : list pyval)
    (i : nat) (n : pyval) :
  let normalize := normalize_song_name isalnum lower in
  names !! i = Some n ->
  is_substring (normalize q) (normalize n)
  \/ is_substring (normalize n) (normalize q) ->
  exists j m,
    resolve isalnum lower q names = Some j
    /\ (j <= i)%nat
    /\ names !! j = Some m
    /\ (match_score (normalize q) (normalize m) == 1)%Q
    /\ forall k m', (k < j)%nat -> names !! k = Some m' ->
         (match_score (normalize q) (normalize m') < 1)%Q.
Proof.
  cbv zeta. intros Hn Hsub.
  apply (resolve_score_one isalnum lower q names i n Hn).
  rewrite (match_score_substring _ _ Hsub). reflexivity.
Qed.

Lemma resolve_substring_hit_witness :
  exists j m,
    resolve ascii_isalnum ascii_lower (PyStr (str "Intro"))
      [PyStr (str "Intro (Remix).mp3"); PyStr (str "intro")] = Some j
    /\ (j <= 1)%nat
    /\ [PyStr (str "Intro (Remix).mp3"); PyStr (str "intro")] !! j = Some m
    /\ (match_score
          (normalize_song_name ascii_isalnum ascii_lower (PyStr (str "Intro")))
          (normalize_song_name ascii_isalnum ascii_lower m) == 1)%Q
    /\ forall k m', (k < j)%nat ->
         [PyStr (str "Intro (Remix).mp3"); PyStr (str "intro")] !! k
           = Some m' ->
         (match_score
            (normalize_song_name ascii_isalnum ascii_lower
               (PyStr (str "Intro")))
            (normalize_song_name ascii_isalnum ascii_lower m') < 1)%Q.
Proof.
  apply (resolve_substring_hit ascii_isalnum ascii_lower
           (PyStr (str "Intro"))
           [PyStr (str "Intro (Remix).mp3"); PyStr (str "intro")]
           1 (PyStr (str "intro"))).
  - reflexivity.
  - left. exists [], []. vm_compute. reflexivity.
Defined.

(** X6: a query whose normalized form is empty (not a string, or nothing
    but punctuation) resolves to row 0 of any table that has a row, and so
    does every query when the first label normalizes to the empty
    string. *)
Theorem resolve_empty_form isalnum lower (q n0 : pyval) (rest : list pyval) :
  normalize_song_name isalnum lower q = []
  \/ normalize_song_name isalnum lower n0 = [] ->
  resolve isalnum lower q (n0 :: rest) = Some 0%nat.
Proof.
  intros Hempty.
  assert (Hsub : is_substring (normalize_song_name isalnum lower q)
                   (normalize_song_name isalnum lower n0)
                 \/ is_substring (normalize_song_name isalnum lower n0)
                      (normalize_song_name isalnum lower q)).
  { destruct Hempty as [->| ->]; [left | right];
      eexists [], _; reflexivity. }
  destruct (resolve_score_one isalnum lower q (n0 :: rest) 0 n0 eq_refl)
    as (j & m & Hr & Hj & _).
  - rewrite (match_score_substring _ _ Hsub). reflexivity.
  - rewrite Hr. f_equal. lia.
Qed.

Lemma resolve_empty_form_witness :
  resolve ascii_isalnum ascii_lower PyNone
    [PyStr (str "First.mp3"); PyStr (str "Second.mp3")] = Some 0%nat.
Proof.
  apply (resolve_empty_form ascii_isalnum ascii_lower). left. reflexivity.
Defined.

(** X7: rows appended to the table do not change the resolved row as long
    as none of them scores more than it. *)
Theorem resolve_app_stable isalnum lower (q : pyval)
    (names more : list pyval) (i : nat) (n : pyval) :
  let score m := match_score (normalize_song_name isalnum lower q)
                   (normalize_song_name isalnum lower m) in
  resolve isalnum lower q names = Some i ->
  names !! i = Some n ->
  (forall m, m ∈ more -> (score m <= score n)%Q) ->
  resolve isalnum lower q (names ++ more) = Some i.
Proof.
  cbv zeta. intros Hr Hn Hmore.
  destruct (resolve_cases isalnum lower q names)
    as [[Hnone _]|(i' & n' & Hr' & Hn' & Hth & Hmax & Hfirst)];
    [congruence|].
  rewrite Hr' in Hr. injection Hr as ->.
  rewrite Hn in Hn'. injection Hn' as <-.
  pose proof (lookup_lt_Some _ _ _ Hn) as Hlt.
  apply (resolve_Some_intro isalnum lower q (names ++ more) i n).
  - rewrite lookup_app_l by exact Hlt. exact Hn.
  - exact Hth.
  - intros j m Hm. apply lookup_app_Some in Hm as [Hm|[_ Hm]].
    + apply (Hmax j m Hm).
    + apply Hmore. eapply list_elem_of_lookup_2, Hm.
  - intros j m Hj Hm. rewrite lookup_app_l in Hm by lia.
    apply (Hfirst j m Hj Hm).
Qed.

Lemma resolve_app_stable_witness :
  resolve ascii_isalnum ascii_lower (PyStr (str "blue sky"))
    ([PyStr (str "Red Sun"); PyStr (str "Blue Sky (Live)")]
     ++ [PyStr (str "Blue Moon")]) = Some 1%nat.
Proof.
  apply (resolve_app_stable ascii_isalnum ascii_lower
           (PyStr (str "blue sky"))
           [PyStr (str "Red Sun"); PyStr (str "Blue Sky (Live)")]
           [PyStr (str "Blue Moon")] 1 (PyStr (str "Blue Sky (Live)"))).
  - reflexivity.
  - reflexivity.
  - intros m Hm. apply elem_of_cons in Hm as [->|Hm].
    + vm_compute. discriminate.
    + apply elem_of_nil in Hm. destruct Hm.
Defined.

(** ** More on the selector and on the whole function *)

(** The scan of the selector lists every column index, in an order along
    which the similarity never increases. *)
Lemma scan_indices argsort (row : list Q) k :
  argsort_spec argsort ->
  k ∈ reverse (argsort row) <-> (k < length row)%nat.
Proof.
  intros Hsort. destruct (Hsort row) as [Hperm _].
  rewrite elem_of_reverse, Hperm, elem_of_seq. lia.
Qed.

Lemma scan_descending argsort (row : list Q) p q a b x y :
  argsort_spec argsort ->
  (p <= q)%nat ->
  reverse (argsort row) !! p = Some a ->
  reverse (argsort row) !! q = Some b ->
  row !! a = Some x -> row !! b = Some y -> (y <= x)%Q.
Proof.
  intros Hsort Hpq Hp Hq Hx Hy. destruct (Hsort row) as [_ Hsorted].
  apply reverse_lookup_Some in Hp as [Hp Hplt].
  apply reverse_lookup_Some in Hq as [Hq Hqlt].
  refine (Hsorted _ _ _ _ _ _ _ Hq Hp Hy Hx). lia.
Qed.


(** X8: when one other entry of the target's row is strictly larger than
    all the rest, the selector returns its index whatever the sort does
    with equal values. *)
Theorem recommend_unique_max argsort (similarity_matrix : list (list Q))
    (target_index j : nat) (row : list Q) (y : Q) :
  argsort_spec argsort ->
  similarity_matrix !! target_index = Some row ->
  row !! j = Some y ->
  j <> target_index ->
  (forall k x, k <> target_index -> k <> j -> row !! k = Some x ->
     (x < y)%Q) ->
  recommend argsort target_index similarity_matrix = Return (Some j).
Proof.
  intros Hsort Hrow Hy Hne Hstrict.
  unfold recommend, matrix_row. rewrite Hrow. simpl. do 2 f_equal.
  assert (Hjin : j ∈ reverse (argsort row)).
  { apply (scan_indices argsort row j Hsort). eapply lookup_lt_Some, Hy. }
  destruct (first_other target_index (reverse (argsort row)))
    as [j'|] eqn:Hfo.
  2:{ exfalso. apply Hne.
      exact (proj1 (first_other_None _ _) Hfo j Hjin). }
  f_equal. destruct (decide (j' = j)) as [H|Hdiff]; [exact H|]. exfalso.
  destruct (first_other_Some _ _ _ Hfo) as (p & Hp & Hne' & Hfirst).
  apply list_elem_of_lookup in Hjin as [pj Hpj].
  assert (Hle : (p <= pj)%nat).
  { destruct (decide (p <= pj)%nat) as [H|H]; [exact H|].
    exfalso. apply Hne, (Hfirst pj j); [lia | exact Hpj]. }
  assert (Hj'lt : (j' < length row)%nat).
  { apply (scan_indices argsort row j' Hsort), list_elem_of_lookup. eauto. }
  destruct (lookup_lt_is_Some_2 row j' Hj'lt) as [x Hx].
  pose proof (scan_descending argsort row p pj j' j x y Hsort Hle Hp Hpj
                Hx Hy) as Hge.
  apply (Qlt_not_le _ _ (Hstrict j' x Hne' Hdiff Hx)), Hge.
Qed.

Lemma recommend_unique_max_witness :
  recommend argsort_stable 1
    [[9#10; 2#10; 7#10]; [8#10; 8#10; 3#10]; [4#10; 6#10; 5#10]]%Q
  = Return (Some 0%nat).
Proof.
  apply (recommend_unique_max argsort_stable
           [[9#10; 2#10; 7#10]; [8#10; 8#10; 3#10]; [4#10; 6#10; 5#10]]%Q
           1 0 [8#10; 8#10; 3#10]%Q (8#10)%Q argsort_stable_spec).
  - reflexivity.
  - reflexivity.
  - lia.
  - intros [|[|[|k]]] x Hk1 Hk0 Hx; try lia; try discriminate.
    injection Hx as <-. reflexivity.
Defined.



(** X10: the function returns nothing, without raising, when the table
    has no [filename] column, when the query does not resolve, and when
    the matrix has no row for the resolved index. *)
Theorem find_best_none_cases isalnum lower argsort
    (target_song_name : pyval) (df : dataframe)
    (similarity_matrix : list (list Q)) :
  columns df !! "filename" = None
  \/ (exists names,
        columns df !! "filename" = Some names
        /\ (resolve isalnum lower target_song_name names = None
            \/ exists t,
                 resolve isalnum lower target_song_name names = Some t
                 /\ (length similarity_matrix <= t)%nat)) ->
  find_best_crossfade_from_match isalnum lower argsort
    target_song_name df similarity_matrix = Return None.
Proof.
  unfold find_best_crossfade_from_match, find_best_body, getitem.
  intros [Hcol|(names & Hcol & [Hr|(t & Hr & Hlen)])]; rewrite Hcol; simpl.
  - reflexivity.
  - rewrite Hr. reflexivity.
  - rewrite Hr.
    destruct (resolve_cases isalnum lower target_song_name names)
      as [[Hn _]|(t' & n & Hr' & Hn & _)]; [congruence|].
    rewrite Hr in Hr'. injection Hr' as <-.
    unfold iloc_filename, getitem. rewrite Hcol. simpl. rewrite Hn. simpl.
    unfold matrix_row. rewrite (lookup_ge_None_2 _ _ Hlen). reflexivity.
Qed.

Lemma find_best_none_cases_witness :
  find_best_crossfade_from_match ascii_isalnum ascii_lower argsort_stable
    (PyStr (str "b"))
    (DataFrame {[ "filename" := [PyStr (str "a"); PyStr (str "b")] ]})
    [[1; 2]]%Q
  = Return None.
Proof.
  apply (find_best_none_cases ascii_isalnum ascii_lower argsort_stable).
  right. exists [PyStr (str "a"); PyStr (str "b")].
  split; [vm_compute; reflexivity|].
  right. exists 1%nat. split; [reflexivity | simpl; lia].
Defined.
(** ** More on the similarity engine *)

Section SimilarityMore.

Import PrimFloat Similarity.
Local Open Scope float_scope.

(** X12: when the library calls return, the combined similarity matrix is
    square, with one row and one column per track. *)
Theorem build_similarity_square
    (fit_transform : fmatrix -> option fmatrix)
    (cosine_similarity : fmatrix -> fmatrix -> option fmatrix)
    (cosine : list float -> list float -> float)
    (df_final : list track) (M : fmatrix) :
  fit_transform_contract fit_transform ->
  cosine_similarity_contract cosine_similarity cosine ->
  build_similarity fit_transform cosine_similarity df_final = Some M ->
  has_shape M (length df_final) (length df_final)
  /\ forall i j, (i < length df_final)%nat -> (j < length df_final)%nat ->
       exists v, entry M i j = Some v.
Proof.
  intros Hfit Hcs HM.
  assert (Hshape : has_shape M (length df_final) (length df_final)).
  { destruct (build_similarity_inv _ _ _ _ HM)
      as (Ss & Se & Cs & Ce & K1 & K2 & T
          & (H1 & H2 & H3 & H4) & (F1 & F2 & F3 & F4) & (C1 & C2) & _).
    destruct (build_similarity_entries fit_transform cosine_similarity
                cosine Hfit Hcs df_final Ss Se Cs Ce K1 K2
                H1 H2 H3 H4 F1 F2 F3 F4 C1 C2)
      as (M' & mx & HM' & _ & Hshape & _).
    rewrite HM in HM'. injection HM' as <-. exact Hshape. }
  split; [exact Hshape|].
  intros i j Hi Hj. destruct Hshape as [Hrows Hcols].
  unfold entry.
  destruct (lookup_lt_is_Some_2 M i) as [row Hrow]; [lia|].
  rewrite Hrow. simpl. apply lookup_lt_is_Some_2.
  rewrite Forall_forall in Hcols.
  rewrite (Hcols row); [exact Hj|].
  eapply list_elem_of_lookup_2, Hrow.
Qed.

Lemma build_similarity_square_witness :
  has_shape
    [[(-0x1.7ca7357a8f492p-3); 0x1.d6a144d64402cp-1];
     [0x1.37575037b8182p-1; (-0x1.15352e13d603p-1)]]
    (length example_tracks) (length example_tracks)
  /\ forall i j,
       (i < length example_tracks)%nat -> (j < length example_tracks)%nat ->
       exists v,
         entry [[(-0x1.7ca7357a8f492p-3); 0x1.d6a144d64402cp-1];
                [0x1.37575037b8182p-1; (-0x1.15352e13d603p-1)]] i j
         = Some v.
Proof.
  apply (build_similarity_square plain_fit_transform plain_cosine_similarity
           plain_cosine example_tracks _
           plain_fit_transform_contract plain_cosine_similarity_contract).
  reflexivity.
Defined.

(** *** Tempo differences that are NaN or infinite *)

Lemma is_nan_true x : is_nan x = true -> x = nan.
Proof.
  unfold is_nan. rewrite FloatAxioms.eqb_spec. intros H.
  rewrite <- (FloatAxioms.SF2Prim_Prim2SF x).
  destruct (FloatOps.Prim2SF x) as [s|s| |s m e] eqn:E;
    [exfalso..|reflexivity|exfalso];
    unfold SpecFloat.SFeqb in H; simpl in H.
  - discriminate.
  - destruct s; discriminate.
  - rewrite Z.compare_refl in H.
    change (PosDef.Pos.compare_cont Eq m m) with (Pos.compare m m) in H.
    rewrite Pos.compare_refl in H. destruct s; discriminate.
Qed.

Lemma maximum_nan_l b : maximum nan b = nan.
Proof. reflexivity. Qed.

Lemma maximum_nan_r a : maximum a nan = nan.
Proof.
  unfold maximum. destruct (is_nan a) eqn:E; [|reflexivity].
  apply is_nan_true, E.
Qed.

Lemma fold_maximum_nan_acc xs : fold_left maximum xs nan = nan.
Proof. induction xs as [|y ys IH]; simpl; [reflexivity|exact IH]. Qed.

Lemma fold_maximum_nan xs : forall x,
  In nan (x :: xs) -> fold_left maximum xs x = nan.
Proof.
  induction xs as [|y ys IH]; intros x Hin; simpl.
  - destruct Hin as [->|[]]. reflexivity.
  - destruct Hin as [->|[->|Hin]].
    + apply fold_maximum_nan_acc.
    + rewrite maximum_nan_r. apply fold_maximum_nan_acc.
    + apply IH. right. exact Hin.
Qed.

Lemma add_nan_l y : nan + y = nan.
Proof.
  rewrite <- (FloatAxioms.SF2Prim_Prim2SF (nan + y)), FloatAxioms.add_spec.
  reflexivity.
Qed.

Lemma div_nan_r x : x / nan = nan.
Proof.
  rewrite <- (FloatAxioms.SF2Prim_Prim2SF (x / nan)), FloatAxioms.div_spec.
  change (FloatOps.Prim2SF nan) with SpecFloat.S754_nan.
  unfold FloatAxioms.SF64div, SpecFloat.SFdiv.
  destruct (FloatOps.Prim2SF x) as [| | |]; reflexivity.
Qed.

Lemma sub_nan_r x : x - nan = nan.
Proof.
  rewrite <- (FloatAxioms.SF2Prim_Prim2SF (x - nan)), FloatAxioms.sub_spec.
  change (FloatOps.Prim2SF nan) with SpecFloat.S754_nan.
  unfold FloatAxioms.SF64sub, SpecFloat.SFsub.
  destruct (FloatOps.Prim2SF x) as [| [] | |]; reflexivity.
Qed.

(** X22: NaN and overflow in the tempo columns. If some pairwise tempo
    difference is NaN, the largest difference is NaN and every tempo score
    is NaN; if the largest difference is infinite, every pair whose
    difference is infinite has the score NaN. *)
Theorem tempo_similarity_nan (df_final : list track) (T : fmatrix) :
  tempo_similarity df_final = Some T ->
  ((exists a b, a ∈ df_final /\ b ∈ df_final
                /\ is_nan (abs (tempo_end a - tempo_start b)) = true) ->
   amax (tempo_matrix df_final) = Some nan
   /\ forall i j a b,
        df_final !! i = Some a -> df_final !! j = Some b ->
        entry T i j = Some nan)
  /\ (amax (tempo_matrix df_final) = Some infinity ->
      forall i j a b,
        df_final !! i = Some a -> df_final !! j = Some b ->
        abs (tempo_end a - tempo_start b) = infinity ->
        entry T i j = Some nan).
Proof.
  unfold tempo_similarity. intros HT.
  destruct (amax (tempo_matrix df_final)) as [mx|] eqn:Hmx;
    simpl in HT; [|discriminate].
  injection HT as <-.
  assert (Hentry : forall i j a b,
            df_final !! i = Some a -> df_final !! j = Some b ->
            entry (map (map (fun d => 1 - d / (mx + EPSILON)))
                       (tempo_matrix df_final)) i j
            = Some (1 - abs (tempo_end a - tempo_start b)
                        / (mx + EPSILON))).
  { intros i j a b Ha Hb.
    apply (entry_map (fun d => 1 - d / (mx + EPSILON))).
    apply (entry_map2 (fun a b => abs (tempo_end a - tempo_start b))
             df_final df_final i j a b Ha Hb). }
  split.
  - intros (a0 & b0 & Ha0 & Hb0 & Hnan).
    assert (Hmxn : mx = nan).
    { assert (Hin : In nan (concat (tempo_matrix df_final))).
      { apply tempo_matrix_In. exists a0, b0.
        split; [exact Ha0|]. split; [exact Hb0|].
        symmetry. apply is_nan_true, Hnan. }
      unfold amax in Hmx.
      destruct (concat (tempo_matrix df_final)) as [|x xs];
        [discriminate|].
      injection Hmx as <-. apply fold_maximum_nan, Hin. }
    subst mx. split; [reflexivity|].
    intros i j a b Ha Hb. rewrite (Hentry i j a b Ha Hb).
    rewrite add_nan_l, div_nan_r, sub_nan_r. reflexivity.
  - intros [= ->] i j a b Ha Hb Hd.
    rewrite (Hentry i j a b Ha Hb), Hd. reflexivity.
Qed.

Lemma tempo_similarity_nan_witness :
  tempo_similarity overflow_track = Some [[nan]]
  /\ amax (tempo_matrix overflow_track) = Some infinity
  /\ entry [[nan]] 0 0 = Some nan.
Proof.
  split; [reflexivity|]. split; [reflexivity|].
  destruct (tempo_similarity_nan overflow_track [[nan]]) as [_ H];
    [reflexivity|].
  eapply (H eq_refl 0%nat 0%nat); reflexivity.
Defined.

End SimilarityMore.

Section EngineMore.

Import Engine.
Local Open Scope R_scope.

(** *** The range of the cosine *)

Lemma dot_cons x a y b : dot (x :: a) (y :: b) = x * y + dot a b.
Proof. reflexivity. Qed.

Lemma cauchy_schwarz_step x y A B D :
  0 <= A -> 0 <= B -> D * D <= A * B ->
  (x * y + D) * (x * y + D) <= (x * x + A) * (y * y + B).
Proof.
  intros HA HB HD.
  set (P := x * x * B + A * (y * y)). set (Q := 2 * x * y * D).
  assert (HP : 0 <= P).
  { unfold P. pose proof (Rle_0_sqr x). pose proof (Rle_0_sqr y).
    unfold Rsqr in *.
    apply Rplus_le_le_0_compat; apply Rmult_le_pos; assumption. }
  assert (HPQ : Rsqr Q <= Rsqr P).
  { unfold Rsqr, P, Q.
    pose proof (Rle_0_sqr (x * x * B - A * y * y)) as H1.
    assert (H2 : 0 <= (2 * x * y) * (2 * x * y) * (A * B - D * D)).
    { apply Rmult_le_pos; [apply (Rle_0_sqr (2 * x * y)) | lra]. }
    unfold Rsqr in H1. lra. }
  apply Rsqr_le_abs_0 in HPQ. rewrite (Rabs_pos_eq P HP) in HPQ.
  pose proof (Rle_abs Q) as HQ.
  unfold P, Q in *. lra.
Qed.

Lemma dot_cauchy_schwarz a b : dot a b * dot a b <= dot a a * dot b b.
Proof.
  revert b. induction a as [|x a IH]; intros b.
  - unfold dot. simpl. lra.
  - destruct b as [|y b].
    + unfold dot at 1 2 4. simpl. lra.
    + rewrite !dot_cons.
      apply cauchy_schwarz_step;
        [apply dot_self_nonneg | apply dot_self_nonneg | apply IH].
Qed.

Lemma dot_abs_le a b : Rabs (dot a b) <= norm a * norm b.
Proof.
  assert (Hn : 0 <= norm a * norm b).
  { apply Rmult_le_pos; apply sqrt_pos. }
  rewrite <- (Rabs_pos_eq _ Hn). apply Rsqr_le_abs_0. unfold Rsqr.
  replace (norm a * norm b * (norm a * norm b))
    with ((norm a * norm a) * (norm b * norm b)) by ring.
  rewrite !norm_sqr. apply dot_cauchy_schwarz.
Qed.

(** X14: for the cosine modelled from the spec, the similarity of any two
    vectors lies between -1 and 1 (Cauchy-Schwarz), also when the two
    have different lengths or one of them is zero. *)
Theorem cosine_bounds (a b : list R) :
  Rabs (dot a b) <= norm a * norm b
  /\ -1 <= Engine.cosine a b <= 1.
Proof.
  pose proof (dot_abs_le a b) as Habs. split; [exact Habs|].
  unfold Engine.cosine.
  destruct (Req_dec_T (norm a) 0) as [Ha|Ha]; [lra|].
  destruct (Req_dec_T (norm b) 0) as [Hb|Hb]; [lra|].
  pose proof (sqrt_pos (dot a a)) as Hpa. fold (norm a) in Hpa.
  pose proof (sqrt_pos (dot b b)) as Hpb. fold (norm b) in Hpb.
  assert (Hp : 0 < norm a * norm b) by (apply Rmult_lt_0_compat; lra).
  pose proof (Rle_abs (dot a b)) as Hu.
  pose proof (Rle_abs (- dot a b)) as Hl. rewrite Rabs_Ropp in Hl.
  assert (Heq : dot a b = dot a b / (norm a * norm b) * (norm a * norm b))
    by (field; lra).
  split; apply (Rmult_le_reg_r (norm a * norm b)); try exact Hp;
    rewrite <- Heq; lra.
Qed.

End EngineMore.


(** ** Loading the table *)

Lemma filter_sublist {A : Type} (f : A -> bool) (l : list A) :
  List.filter f l `sublist_of` l.
Proof.
  induction l as [|x l IH]; simpl; [constructor|].
  destruct (f x); [apply sublist_skip | apply sublist_cons]; exact IH.
Qed.

(** X16: the schema check lists exactly the required columns that the
    table lacks, in the order of the requirement; when it lists none, all
    seven are there and the later lookup of [filename] cannot fail. *)
Theorem missing_columns_spec (df_final : dataframe) :
  (forall col, col ∈ missing_columns df_final <->
     col ∈ required_columns /\ columns df_final !! col = None)
  /\ missing_columns df_final `sublist_of` required_columns
  /\ (missing_columns df_final = [] <->
      forall col, col ∈ required_columns ->
        is_Some (columns df_final !! col))
  /\ (missing_columns df_final = [] ->
      exists names, getitem df_final "filename" = Return names).
Proof.
  assert (Hin : forall col, col ∈ missing_columns df_final <->
            col ∈ required_columns /\ columns df_final !! col = None).
  { intros col. unfold missing_columns.
    rewrite !list_elem_of_In, filter_In, bool_decide_eq_true. reflexivity. }
  assert (Hnil : missing_columns df_final = [] <->
            forall col, col ∈ required_columns ->
              is_Some (columns df_final !! col)).
  { split.
    - intros Hm col Hcol.
      destruct (columns df_final !! col) as [v|] eqn:Hv; [eauto|].
      exfalso. assert (H : col ∈ missing_columns df_final)
        by (apply Hin; auto).
      rewrite Hm in H. apply elem_of_nil in H. exact H.
    - intros Hall.
      destruct (missing_columns df_final) as [|c l] eqn:Hm; [reflexivity|].
      exfalso. assert (H : c ∈ c :: l) by (apply elem_of_cons; auto).
      apply Hin in H as [Hreq Hnone].
      destruct (Hall c Hreq) as [v Hv]. congruence. }
  split; [exact Hin|]. split; [apply filter_sublist|].
  split; [exact Hnil|].
  intros Hm. unfold getitem.
  destruct (proj1 Hnil Hm "filename") as [names Hn].
  - unfold required_columns. apply elem_of_cons. auto.
  - rewrite Hn. eauto.
Qed.

(** *** Splitting and joining *)

Lemma split_on_cons sep s : exists p ps, split_on sep s = p :: ps.
Proof.
  induction s as [|c s (p & ps & IH)]; simpl; [eauto|].
  destruct (c =? sep); [eauto|]. rewrite IH. eauto.
Qed.

Lemma split_on_length sep s :
  length (split_on sep s)
  = S (length (List.filter (fun c => c =? sep) s)).
Proof.
  induction s as [|c s IH]; simpl; [reflexivity|].
  destruct (c =? sep); simpl; [rewrite IH; reflexivity|].
  destruct (split_on_cons sep s) as (p & ps & Hs).
  rewrite Hs in *. exact IH.
Qed.

Lemma split_on_no_sep sep p :
  Forall (fun c => (c =? sep) = false) p -> split_on sep p = [p].
Proof.
  induction 1 as [|c p Hc Hp IH]; simpl; [reflexivity|].
  rewrite Hc, IH. reflexivity.
Qed.

Lemma split_on_app sep p rest :
  Forall (fun c => (c =? sep) = false) p ->
  split_on sep (p ++ sep :: rest) = p :: split_on sep rest.
Proof.
  induction 1 as [|c p Hc Hp IH]; simpl.
  - rewrite N.eqb_refl. reflexivity.
  - rewrite Hc, IH. reflexivity.
Qed.

Lemma split_on_join sep pieces :
  pieces <> [] ->
  Forall (Forall (fun c => (c =? sep) = false)) pieces ->
  split_on sep (join_with sep pieces) = pieces.
Proof.
  intros Hne H. induction H as [|p rest Hp Hrest IH]; [congruence|].
  cbn [join_with]. destruct rest as [|q rest'].
  - apply split_on_no_sep, Hp.
  - rewrite split_on_app by exact Hp. f_equal. apply IH. discriminate.
Qed.

Lemma join_with_Forall (P : N -> Prop) sep pieces :
  P sep -> Forall (Forall P) pieces -> Forall P (join_with sep pieces).
Proof.
  intros Hsep H. induction H as [|p rest Hp Hrest IH]; [constructor|].
  cbn [join_with]. destruct rest as [|q rest']; [exact Hp|].
  apply Forall_app. split; [exact Hp|]. constructor; [exact Hsep | exact IH].
Qed.

Lemma rstrip_chars_closing chars body c :
  in_chars chars c = true ->
  Forall (fun d => in_chars chars d = false) body ->
  rstrip_chars chars (body ++ [c]) = body.
Proof.
  intros Hc. induction 1 as [|d body Hd Hbody IH].
  - simpl. rewrite Hc. reflexivity.
  - cbn [app rstrip_chars forallb]. rewrite Hd. cbn [andb].
    f_equal. exact IH.
Qed.

Lemma strip_chars_enclosed chars o c body :
  in_chars chars o = true -> in_chars chars c = true ->
  Forall (fun d => in_chars chars d = false) body ->
  strip_chars chars (o :: body ++ [c]) = body.
Proof.
  intros Ho Hc Hbody. unfold strip_chars. cbn [lstrip_chars]. rewrite Ho.
  destruct Hbody as [|d body Hd Hbody].
  - simpl. rewrite Hc. reflexivity.
  - cbn [app lstrip_chars]. rewrite Hd.
    apply (rstrip_chars_closing chars (d :: body) c Hc).
    constructor; assumption.
Qed.

Lemma lstrip_chars_all chars s :
  forallb (in_chars chars) s = true -> lstrip_chars chars s = [].
Proof.
  induction s as [|c s IH]; [reflexivity|]. simpl.
  destruct (in_chars chars c); [exact IH | discriminate].
Qed.

Section ParseFacts.

Import Loader.

Variable float : pystr -> option R.

(** X17: a feature cell that parses never gives an empty vector: the
    vector has one component more than there are commas in the cell
    (brackets at both ends set aside); a cell that is not a string does
    not parse. *)
Theorem parse_vector_length (x : pyval) (v : list R) :
  parse_vector float x = Some v ->
  exists s,
    x = PyStr s
    /\ length v
       = S (length (List.filter (fun c => c =? COMMA)
                      (strip_chars [LBRACKET; RBRACKET] s)))
    /\ v <> [].
Proof.
  destruct x as [s| |]; simpl; try discriminate.
  intros Hv. exists s. split; [reflexivity|].
  apply length_mapM in Hv. rewrite split_on_length in Hv.
  split; [symmetry; exact Hv|]. intros ->. discriminate.
Qed.

(** X18: writing the pieces of a vector between brackets, separated by
    commas, and parsing the cell gives back the value of every piece, in
    order, provided no piece contains a comma or a bracket. *)
Theorem parse_vector_join (pieces : list pystr) (xs : list R) :
  pieces <> [] ->
  Forall (Forall (fun c => in_chars [COMMA; LBRACKET; RBRACKET] c = false))
         pieces ->
  Forall2 (fun p x => float p = Some x) pieces xs ->
  parse_vector float
    (PyStr (LBRACKET :: join_with COMMA pieces ++ [RBRACKET]))
  = Some xs.
Proof.
  intros Hne Hclean Hval. unfold parse_vector.
  assert (Hsplit : forall c, in_chars [COMMA; LBRACKET; RBRACKET] c = false ->
            (c =? COMMA) = false /\ in_chars [LBRACKET; RBRACKET] c = false).
  { intros c. unfold in_chars. cbn [existsb]. rewrite !orb_false_iff.
    intros (H1 & H2 & H3 & _). rewrite H2, H3. auto. }
  rewrite strip_chars_enclosed; [|reflexivity|reflexivity|].
  - rewrite split_on_join; [apply mapM_Some; exact Hval | exact Hne|].
    eapply Forall_impl; [exact Hclean|]. intros p Hp.
    eapply Forall_impl; [exact Hp|]. intros c Hc. apply (Hsplit c Hc).
  - apply (join_with_Forall
             (fun d => in_chars [LBRACKET; RBRACKET] d = false));
      [reflexivity|].
    eapply Forall_impl; [exact Hclean|]. intros p Hp.
    eapply Forall_impl; [exact Hp|]. intros c Hc. apply (Hsplit c Hc).
Qed.

(** X19: a cell made of brackets only, such as "[]", does not parse as
    soon as [float] rejects the empty text (Python's does): there is no
    empty feature vector. *)
Theorem parse_vector_brackets_only (s : pystr) :
  float [] = None ->
  forallb (in_chars [LBRACKET; RBRACKET]) s = true ->
  parse_vector float (PyStr s) = None.
Proof.
  intros Hf Hs. unfold parse_vector, strip_chars.
  rewrite (lstrip_chars_all _ _ Hs). simpl. rewrite Hf. reflexivity.
Qed.

End ParseFacts.

Lemma parse_vector_length_witness :
  exists s,
    PyStr (str "[1,2,3]") = PyStr s
    /\ length [1; 2; 3]%R
       = S (length (List.filter (fun c => c =? COMMA)
                      (strip_chars [LBRACKET; RBRACKET] s)))
    /\ [1; 2; 3]%R <> [].
Proof.
  apply (parse_vector_length example_float (PyStr (str "[1,2,3]"))
           [1; 2; 3]%R).
  reflexivity.
Defined.

Lemma parse_vector_join_witness :
  Loader.parse_vector example_float
    (PyStr (LBRACKET :: join_with COMMA [str "4"; str "0"; str "7"]
            ++ [RBRACKET]))
  = Some [4; 0; 7]%R.
Proof.
  apply (parse_vector_join example_float).
  - discriminate.
  - repeat (constructor; [repeat constructor|]). constructor.
  - repeat (constructor; [reflexivity|]). constructor.
Defined.

Lemma parse_vector_brackets_only_witness :
  Loader.parse_vector example_float (PyStr (str "[]")) = None.
Proof.
  apply (parse_vector_brackets_only example_float (str "[]"));
    reflexivity.
Defined.

(** ** Words of a name *)

Lemma split_from_nil cur s :
  split_from cur s = [] <-> cur = [] /\ forallb isspace s = true.
Proof.
  revert cur. induction s as [|c s IH]; intros cur; simpl.
  - destruct cur; split; try discriminate; auto. intros [H _]. discriminate.
  - destruct (isspace c) eqn:Hc; simpl.
    + destruct cur as [|d cur].
      * rewrite IH. tauto.
      * split; [discriminate | intros [H _]; discriminate].
    + rewrite IH. split; [intros [H _] | intros [_ H]]; discriminate.
Qed.

Lemma no_space_collapse b u :
  Forall (fun c => isspace c = false) u -> collapse_spaces b u = u.
Proof.
  intros H. revert b. induction H as [|c u Hc Hu IH]; intros b;
    [reflexivity|].
  rewrite collapse_nonspace_flag by exact Hc. f_equal. apply IH.
Qed.

Lemma collapse_app_nonspace b u s :
  Forall (fun c => isspace c = false) u ->
  u <> [] ->
  collapse_spaces b (u ++ s) = u ++ collapse_spaces false s.
Proof.
  intros H Hne. revert b. induction H as [|c u Hc Hu IH]; intros b;
    [congruence|].
  cbn [app]. rewrite collapse_nonspace_flag by exact Hc. f_equal.
  destruct u as [|d u]; [reflexivity|]. apply IH. discriminate.
Qed.

Lemma rstrip_app_nonspace u v :
  Forall (fun c => isspace c = false) u ->
  rstrip (u ++ v) = u ++ rstrip v.
Proof.
  induction 1 as [|c u Hc Hu IH]; [reflexivity|].
  cbn [app rstrip forallb]. rewrite Hc. cbn [andb]. f_equal. exact IH.
Qed.

Lemma lstrip_app_nonspace u v :
  Forall (fun c => isspace c = false) u -> u <> [] ->
  lstrip (u ++ v) = u ++ v.
Proof.
  intros H Hne. destruct H as [|c u Hc Hu]; [congruence|].
  simpl. rewrite Hc. reflexivity.
Qed.

Lemma rstrip_all_space s : forallb isspace s = true -> rstrip s = [].
Proof.
  destruct s as [|c s]; [reflexivity|]. intros H. cbn [rstrip].
  rewrite H. reflexivity.
Qed.

Lemma lstrip_idem s : lstrip (lstrip s) = lstrip s.
Proof.
  destruct (lstrip_head s) as [->|(d & u & -> & Hd)]; [reflexivity|].
  simpl. rewrite Hd. reflexivity.
Qed.

Lemma strip_collapse_space c s :
  isspace c = true ->
  strip (collapse_spaces false (c :: s)) = strip (collapse_spaces false s).
Proof.
  intros Hc. unfold strip. rewrite !lstrip_collapse. cbn [lstrip].
  rewrite Hc. reflexivity.
Qed.

Lemma rev_nonspace cur :
  Forall (fun c => isspace c = false) cur ->
  Forall (fun c => isspace c = false) (rev cur).
Proof. intros H. apply Forall_rev, H. Qed.

Lemma join_split_from cur s :
  Forall (fun c => isspace c = false) cur ->
  join_with SPACE (split_from cur s)
  = strip (collapse_spaces false (rev cur ++ s)).
Proof.
  revert cur. induction s as [|c s IH]; intros cur Hcur.
  - rewrite app_nil_r. pose proof (rev_nonspace cur Hcur) as Hr.
    rewrite (no_space_collapse false _ Hr). unfold strip.
    destruct cur as [|d cur]; [reflexivity|].
    cbn [split_from join_with].
    assert (Hne : rev (d :: cur) <> []).
    { simpl. intros H. apply app_eq_nil in H as [_ H]. discriminate. }
    rewrite <- (app_nil_r (rev (d :: cur))) at 2.
    rewrite (lstrip_app_nonspace _ [] Hr Hne), (rstrip_app_nonspace _ [] Hr).
    rewrite app_nil_r. reflexivity.
  - cbn [split_from]. destruct (isspace c) eqn:Hc.
    + destruct cur as [|d cur].
      * rewrite (IH [] Hcur). cbn [rev app].
        symmetry. apply strip_collapse_space, Hc.
      * pose proof (rev_nonspace (d :: cur) Hcur) as Hr.
        assert (Hne : rev (d :: cur) <> []).
        { simpl. intros H. apply app_eq_nil in H as [_ H]. discriminate. }
        set (u := rev (d :: cur)) in *.
        rewrite (collapse_app_nonspace false u (c :: s) Hr Hne).
        unfold strip at 1.
        rewrite (lstrip_app_nonspace u _ Hr Hne), (rstrip_app_nonspace u _ Hr).
        cbn [join_with].
        destruct (split_from [] s) as [|w ws] eqn:Hsp.
        -- apply split_from_nil in Hsp as [_ Hall].
           rewrite rstrip_all_space, app_nil_r; [reflexivity|].
           rewrite forallb_collapse. cbn [forallb]. rewrite Hc, Hall.
           reflexivity.
        -- f_equal. rewrite <- Hsp, (IH [] ltac:(constructor)).
           cbn [rev app]. cbn [collapse_spaces]. rewrite Hc.
           assert (Hnall : forallb isspace s = false).
           { destruct (forallb isspace s) eqn:Hall; [|reflexivity].
             assert (split_from [] s = []) as Hnil
               by (apply split_from_nil; auto).
             congruence. }
           cbn [rstrip forallb]. rewrite isspace_SPACE, forallb_collapse, Hnall.
           cbn [andb]. f_equal.
           unfold strip. rewrite lstrip_collapse, collapse_true_lstrip.
           reflexivity.
    + rewrite (IH (c :: cur)) by (constructor; assumption).
      cbn [rev]. rewrite <- app_assoc. reflexivity.
Qed.

(** X20: joining the words of any string by single spaces gives the
    string with its whitespace runs collapsed and its ends trimmed; so the
    words of a normalized name, joined by single spaces, are the name
    itself: the word sets used for scoring lose nothing but order and
    repetition. *)
Theorem join_split_normalized isalnum lower (s : pystr) (name : pyval) :
  join_with SPACE (split s) = strip (collapse_spaces false s)
  /\ join_with SPACE (split (normalize_song_name isalnum lower name))
     = normalize_song_name isalnum lower name.
Proof.
  assert (H : forall t, join_with SPACE (split t)
                        = strip (collapse_spaces false t)).
  { intros t. apply (join_split_from [] t). constructor. }
  split; [apply H|]. rewrite H, normalize_pipeline.
  destruct name as [t| |]; try reflexivity.
  unfold normalize_steps. rewrite collapse_strip, collapse_idem.
  apply strip_idem.
Qed.

Lemma word_set_nonempty s c r :
  s = c :: r -> isspace c = false -> (1 <= size (word_set s))%nat.
Proof.
  intros -> Hc. unfold word_set, split.
  destruct (split_from [] (c :: r)) as [|w ws] eqn:Hsp.
  - apply split_from_nil in Hsp as [_ H]. simpl in H. rewrite Hc in H.
    discriminate.
  - assert (Hw : w ∈ (list_to_set (w :: ws) : gset pystr)).
    { apply elem_of_list_to_set, elem_of_cons. auto. }
    destruct (size (list_to_set (w :: ws) : gset pystr)) eqn:Hsz; [|lia].
    apply size_empty_iff in Hsz. rewrite Hsz in Hw.
    apply elem_of_empty in Hw. destruct Hw.
Qed.

(** X21: the guard [max(len(target_words), 1)] of line 63 is never the
    divisor that counts: whenever the word count decides the score (the
    normalized query is not found inside the candidate), the query has at
    least one word and the score is the number of common words over the
    number of words of the query. *)
Theorem score_guard_unused isalnum lower (q : pyval) (cs : pystr) :
  let nt := normalize_song_name isalnum lower q in
  contains nt cs = false ->
  (1 <= size (word_set nt))%nat
  /\ (contains cs nt = false ->
      (match_score nt cs ==
       inject_Z (Z.of_nat (size (word_set nt ∩ word_set cs)))
       / inject_Z (Z.of_nat (size (word_set nt))))%Q).
Proof.
  cbv zeta. intros Hc.
  destruct (normalize_song_name isalnum lower q) as [|c r] eqn:Hnt.
  { destruct cs; simpl in Hc; discriminate. }
  assert (Hhead : isspace c = false).
  { destruct q as [s| |]; simpl in Hnt; try discriminate.
    rewrite sub_spaces in Hnt.
    destruct (strip (lower (Re.sub (special_re isalnum) []
                              (Re.sub bracket_re [] s))))
      as [|d u] eqn:Hst; [discriminate|].
    pose proof (strip_head _ d u Hst) as Hd.
    rewrite collapse_nonspace_flag in Hnt by exact Hd.
    injection Hnt as <- _. exact Hd. }
  pose proof (word_set_nonempty (c :: r) c r eq_refl Hhead) as Hsz.
  split; [exact Hsz|]. intros Hc'.
  unfold match_score. rewrite Hc, Hc'. cbn [orb].
  rewrite Qmake_Qdiv, Zpos_of_nat_max.
  replace (Nat.max (size (word_set (c :: r))) 1)
    with (size (word_set (c :: r))) by lia.
  reflexivity.
Qed.

Lemma score_guard_unused_witness :
  (1 <= size (word_set (normalize_song_name ascii_isalnum ascii_lower
                          (PyStr (str "Blue Sky")))))%nat
  /\ (contains (str "red sky at night")
        (normalize_song_name ascii_isalnum ascii_lower
           (PyStr (str "Blue Sky"))) = false ->
      (match_score
         (normalize_song_name ascii_isalnum ascii_lower
            (PyStr (str "Blue Sky")))
         (str "red sky at night") ==
       inject_Z (Z.of_nat (size
         (word_set (normalize_song_name ascii_isalnum ascii_lower
                      (PyStr (str "Blue Sky")))
          ∩ word_set (str "red sky at night"))))
       / inject_Z (Z.of_nat (size
           (word_set (normalize_song_name ascii_isalnum ascii_lower
                        (PyStr (str "Blue Sky")))))))%Q).
Proof.
  apply (score_guard_unused ascii_isalnum ascii_lower
           (PyStr (str "Blue Sky")) (str "red sky at night")).
  reflexivity.
Defined.
